(** * Chub: playback engine, playlist registry, session protocol, cue parser

    A shallow embedding of the parts of the Chub audio daemon that its
    specification talks about, with the properties of the specification
    stated and settled against the embedded code.

    - [Engine]   : player/playingthread.go (the serialized control loop)
    - [Registry] : src/player/player.go    (named playlists)
    - [Session]  : server client handler   (text responses)
    - [Cue]      : cue-sheet parser        (INDEX validation) *)

From Stdlib Require Import ZArith String Ascii List Bool Lia.
From stdpp Require Import base option list strings gmap.
Import ListNotations.

Local Open Scope Z_scope.

(* ===================================================================== *)
(** * The playback engine (player/playingthread.go)                       *)
(* ===================================================================== *)

Module Engine.

(** ** Data *)

(** Modelled from the spec: [vfs.Path], declared outside the sources at
    hand, as the physical file reference of a track; the engine only
    calls [File()] and [Ext()] on it. *)
Record Path := { File : string; Ext : string }.

(** Modelled from the spec: [Track], declared outside the sources at
    hand, with the fields the engine reads: the file reference, the
    [Part] flag and the [Start] and [End] time offsets, which are only
    compared, never computed with. *)
Record Track := { TPath : Path; Part : bool; Start : Z; End : Z }.

(** A [*Track]: the address of a track object.  Two tracks with equal
    field values may live at different addresses. *)
Definition ptr := nat.

(** Modelled from the spec: [Tracks], declared outside the sources at
    hand, an ordered, indexable sequence of [*Track]. *)
Definition Tracks := list ptr.

(** [type state int] with its three constants. *)
Inductive pstate := stateStopped | statePlaying | statePaused.

Definition pstate_eqb (a b : pstate) : bool :=
  match a, b with
  | stateStopped, stateStopped | statePlaying, statePlaying
  | statePaused, statePaused => true
  | _, _ => false
  end.

(** The [bufAvailable] channel as the loop goroutine sees it: never made,
    made by [startBufAvailableChecker] (a checker goroutine is attached to
    it), or closed by [stopBufAvailableChecker]. *)
Inductive chan := chanNil | chanOpen | chanClosed.

(** Modelled from the spec: the [Decoder] capability, whose
    implementations are outside the sources at hand.  A factory of the
    [decoders] table stands for how the decoders it makes answer [Open],
    [SampleRate] and [Channels] for a given file. *)
Record DecoderDriver := {
  open_fails : string -> bool;
  rate_of : string -> Z;
  channels_of : string -> Z
}.

(** A decoder object made by a factory and opened on [dfile]; [did] tells
    decoder objects apart. *)
Record Decoder := { did : nat; driver : DecoderDriver; dfile : string }.

(** Modelled from the spec: the [Output] capability, whose
    implementations are outside the sources at hand, as far as the
    engine queries it: whether it is open, its sample rate and channel
    count, and whether it is paused. *)
Record Output := {
  oIsOpen : bool;
  oSampleRate : Z;
  oChannels : Z;
  oPaused : bool
}.

(** The calls the engine makes on its collaborators, in order. *)
Inductive event :=
| DecoderNew (id : nat) (ext : string)
| DecoderOpen (id : nat) (file : string)
| DecoderClose (id : nat)
| DecoderSeek (id : nat) (t : Z)
| DecoderTime (id : nat)
| DecoderRead (id : nat) (n : Z)
| OutputOpen
| OutputClose
| OutputReset
| OutputPause
| OutputSetSampleRate (r : Z)
| OutputSetChannels (c : Z)
| OutputAvailUpdate
| OutputWriteAll (n : Z)
| CheckerStart
| CheckerStop.

Definition is_seek (e : event) : bool :=
  match e with DecoderSeek _ _ => true | _ => false end.
Definition is_reset (e : event) : bool :=
  match e with OutputReset => true | _ => false end.
Definition is_decoder_close (e : event) : bool :=
  match e with DecoderClose _ => true | _ => false end.
Definition is_decoder_open (e : event) : bool :=
  match e with DecoderOpen _ _ => true | _ => false end.

(** Number of events of a trace that satisfy [p]. *)
Definition count (p : event -> bool) (t : list event) : nat :=
  length (filter (fun e => p e = true) t).

(** [playingThread], without [msgChan] (messages are the inputs of the
    loop).  [fresh] is the identity given to the next decoder object.
    [pos] is an [int]: it is compared with the length of the list, and
    the loop adds or subtracts 1 only from a position between -1 and
    that length, so the machine integer never wraps. *)
Record playingThread := {
  decoders : gmap string DecoderDriver;
  output : Output;
  plist : option Tracks;
  pos : Z;
  state : pstate;
  decoder : option Decoder;
  bufAvailable : chan;
  fresh : nat
}.

(** [newPlayingThread]. *)
Definition newPlayingThread (decoders : gmap string DecoderDriver)
    (output : Output) : playingThread :=
  {| decoders := decoders; output := output; plist := None; pos := -1;
     state := stateStopped; decoder := None; bufAvailable := chanNil;
     fresh := 0%nat |}.

(** ** Ways in which the loop goroutine stops making progress *)

Inductive abort :=
| PanicNilDeref        (* method call or field read through nil *)
| PanicIndex           (* Tracks.Get out of range *)
| PanicSendOnClosed    (* send on a closed channel *)
| PanicTODO            (* panic("TODO:") *)
| BlockedOnNilChan.    (* send on a nil channel never returns *)

Inductive result (A : Type) :=
| Ret (a : A)
| Abort (p : abort).
Arguments Ret {A} a.
Arguments Abort {A} p.

(** ** The engine monad: state, call trace, abort *)

Definition M (A : Type) : Type :=
  playingThread -> result A * playingThread * list event.

Definition ret {A} (a : A) : M A := fun s => (Ret a, s, []).

Definition bind {A B} (m : M A) (f : A -> M B) : M B :=
  fun s =>
    match m s with
    | (Ret a, s1, t1) =>
        match f a s1 with (r, s2, t2) => (r, s2, t1 ++ t2) end
    | (Abort p, s1, t1) => (Abort p, s1, t1)
    end.

Definition panic {A} (p : abort) : M A := fun s => (Abort p, s, []).
Definition emit (e : event) : M unit := fun s => (Ret tt, s, [e]).
Definition get {A} (f : playingThread -> A) : M A := fun s => (Ret (f s), s, []).
Definition modify (f : playingThread -> playingThread) : M unit :=
  fun s => (Ret tt, f s, []).

Declare Scope engine_scope.
Delimit Scope engine_scope with engine.
Notation "x <- c1 ;; c2" := (bind c1 (fun x => c2))
  (at level 100, c1 at next level, right associativity) : engine_scope.
Notation "c1 ;; c2" := (bind c1 (fun _ => c2))
  (at level 100, right associativity) : engine_scope.
Local Open Scope engine_scope.

Definition when (b : bool) (m : M unit) : M unit := if b then m else ret tt.

(** Projections of a run. *)
Definition outcome {A} (r : result A * playingThread * list event) : result A :=
  fst (fst r).
Definition final {A} (r : result A * playingThread * list event) : playingThread :=
  snd (fst r).
Definition trace {A} (r : result A * playingThread * list event) : list event :=
  snd r.

(** ** Field assignments *)

Definition set_output (o : Output) (s : playingThread) : playingThread :=
  {| decoders := decoders s; output := o; plist := plist s; pos := pos s;
     state := state s; decoder := decoder s; bufAvailable := bufAvailable s;
     fresh := fresh s |}.
Definition set_plist (l : option Tracks) (s : playingThread) : playingThread :=
  {| decoders := decoders s; output := output s; plist := l; pos := pos s;
     state := state s; decoder := decoder s; bufAvailable := bufAvailable s;
     fresh := fresh s |}.
Definition set_pos (p : Z) (s : playingThread) : playingThread :=
  {| decoders := decoders s; output := output s; plist := plist s; pos := p;
     state := state s; decoder := decoder s; bufAvailable := bufAvailable s;
     fresh := fresh s |}.
Definition set_state (st : pstate) (s : playingThread) : playingThread :=
  {| decoders := decoders s; output := output s; plist := plist s; pos := pos s;
     state := st; decoder := decoder s; bufAvailable := bufAvailable s;
     fresh := fresh s |}.
Definition set_decoder (d : option Decoder) (s : playingThread) : playingThread :=
  {| decoders := decoders s; output := output s; plist := plist s; pos := pos s;
     state := state s; decoder := d; bufAvailable := bufAvailable s;
     fresh := fresh s |}.
Definition set_bufAvailable (c : chan) (s : playingThread) : playingThread :=
  {| decoders := decoders s; output := output s; plist := plist s; pos := pos s;
     state := state s; decoder := decoder s; bufAvailable := c;
     fresh := fresh s |}.
Definition set_fresh (n : nat) (s : playingThread) : playingThread :=
  {| decoders := decoders s; output := output s; plist := plist s; pos := pos s;
     state := state s; decoder := decoder s; bufAvailable := bufAvailable s;
     fresh := n |}.

(** ** Collaborators *)

Section WithHeap.

(** The track objects the playlists point to.  Tracks are never written
    by the engine, so the store is fixed; an address outside it stands
    for a nil or dangling [*Track]. *)
Variable heap : ptr -> option Track.

(** Reading a field through a [*Track]. *)
Definition deref (p : ptr) : M Track :=
  match heap p with
  | Some t => ret t
  | None => panic PanicNilDeref
  end.

(** Modelled from the spec: [Len] and [Get] of [*Tracks], declared
    outside the sources at hand.  A nil list cannot be measured, and an
    index outside the list yields no track. *)
Definition Tracks_Len (l : option Tracks) : M Z :=
  match l with
  | Some l => ret (Z.of_nat (length l))
  | None => panic PanicNilDeref
  end.

Definition Tracks_Get (l : option Tracks) (i : Z) : M ptr :=
  match l with
  | None => panic PanicNilDeref
  | Some l =>
      if i <? 0 then panic PanicIndex
      else match l !! Z.to_nat i with
           | Some p => ret p
           | None => panic PanicIndex
           end
  end.

(** Calls through [pt.decoder]; a nil interface value panics. *)
Definition with_decoder {A} (k : Decoder -> M A) : M A :=
  d <- get decoder;;
  match d with
  | Some d => k d
  | None => panic PanicNilDeref
  end.

Definition decoder_Close : M unit :=
  with_decoder (fun d => emit (DecoderClose (did d))).
Definition decoder_Seek (t : Z) : M unit :=
  with_decoder (fun d => emit (DecoderSeek (did d) t)).
Definition decoder_SampleRate : M Z :=
  with_decoder (fun d => ret (rate_of (driver d) (dfile d))).
Definition decoder_Channels : M Z :=
  with_decoder (fun d => ret (channels_of (driver d) (dfile d))).
Definition decoder_Time (now : Z) : M Z :=
  with_decoder (fun d => emit (DecoderTime (did d));; ret now).
Definition decoder_Read (n : Z) : M Z :=
  with_decoder (fun d => emit (DecoderRead (did d) n);; ret n).

(** Modelled from the spec: the calls on [pt.output].  [Open] opens
    the device and [Close] closes it, [Pause] toggles between paused
    and running, the setters reconfigure it. *)
Definition output_Open : M unit :=
  emit OutputOpen;;
  modify (fun s => set_output
    {| oIsOpen := true; oSampleRate := oSampleRate (output s);
       oChannels := oChannels (output s); oPaused := oPaused (output s) |} s).
Definition output_Close : M unit :=
  emit OutputClose;;
  modify (fun s => set_output
    {| oIsOpen := false; oSampleRate := oSampleRate (output s);
       oChannels := oChannels (output s); oPaused := oPaused (output s) |} s).
Definition output_Pause : M unit :=
  emit OutputPause;;
  modify (fun s => set_output
    {| oIsOpen := oIsOpen (output s); oSampleRate := oSampleRate (output s);
       oChannels := oChannels (output s);
       oPaused := negb (oPaused (output s)) |} s).
Definition output_Reset : M unit := emit OutputReset.
Definition output_SetSampleRate (r : Z) : M unit :=
  emit (OutputSetSampleRate r);;
  modify (fun s => set_output
    {| oIsOpen := oIsOpen (output s); oSampleRate := r;
       oChannels := oChannels (output s); oPaused := oPaused (output s) |} s).
Definition output_SetChannels (c : Z) : M unit :=
  emit (OutputSetChannels c);;
  modify (fun s => set_output
    {| oIsOpen := oIsOpen (output s); oSampleRate := oSampleRate (output s);
       oChannels := c; oPaused := oPaused (output s) |} s).

(** ** The buffer-availability checker *)

(** [startBufAvailableChecker]: a new channel and a new goroutine. *)
Definition startBufAvailableChecker : M unit :=
  modify (set_bufAvailable chanOpen);;
  emit CheckerStart.

(** [stopBufAvailableChecker]: [pt.bufAvailable <- struct{}{}] and then
    [close(pt.bufAvailable)].  On a channel with its checker attached the
    checker takes the value in its select and returns.  A send on a
    channel that was already closed panics; a send on a nil channel
    blocks for ever. *)
Definition stopBufAvailableChecker : M unit :=
  c <- get bufAvailable;;
  match c with
  | chanOpen => emit CheckerStop;; modify (set_bufAvailable chanClosed)
  | chanClosed => panic PanicSendOnClosed
  | chanNil => panic BlockedOnNilChan
  end.

(** ** play, stop, setPlaylist *)

(** The first statement of [play]: a negative [pos] becomes the last
    index, a [pos] at or past the length becomes 0. *)
Definition wrap_pos (len pos : Z) : Z :=
  if pos <? 0 then len - 1
  else if pos >=? len then 0
  else pos.

(** [df()] : a new decoder object. *)
Definition new_decoder (ext : string) : M nat :=
  id <- get fresh;;
  modify (set_fresh (S id));;
  emit (DecoderNew id ext);;
  ret id.

(** [decoder.Open(file)] on the new object; [true] when [err == nil]. *)
Definition new_decoder_Open (id : nat) (drv : DecoderDriver) (file : string)
    : M bool :=
  emit (DecoderOpen id file);;
  ret (negb (open_fails drv file)).

Definition play (target : Z) (smooth : bool) : M unit :=
  l <- get plist;;
  len <- Tracks_Len l;;
  let target := wrap_pos len target in
  st <- get state;;
  when (negb (pstate_eqb st stateStopped)) stopBufAvailableChecker;;
  l <- get plist;;
  track <- Tracks_Get l target;;
  st <- get state;;
  same <- (if pstate_eqb st statePlaying then
             p <- get pos;;
             cur <- Tracks_Get l p;;
             c <- deref cur;;
             t <- deref track;;
             ret (String.eqb (File (TPath c)) (File (TPath t)),
                  Z.eqb (End c) (Start t))
           else ret (false, false));;
  let sameFile := fst same in
  let upcoming := snd same in
  when (negb sameFile) (
    st <- get state;;
    when (pstate_eqb st statePlaying) decoder_Close;;
    t <- deref track;;
    ds <- get decoders;;
    match ds !! Ext (TPath t) with
    | None =>
        decoder_Close;;
        modify (set_state stateStopped);;
        panic PanicTODO
    | Some drv =>
        id <- new_decoder (Ext (TPath t));;
        ok <- new_decoder_Open id drv (File (TPath t));;
        if ok then
          modify (set_decoder
                    (Some {| did := id; driver := drv;
                             dfile := File (TPath t) |}))
        else
          decoder_Close;;
          modify (set_state stateStopped);;
          panic PanicTODO
    end);;
  t <- deref track;;
  when (Part t) (
    when (negb sameFile || negb upcoming) (decoder_Seek (Start t)));;
  isOpen <- get (fun s => oIsOpen (output s));;
  when (negb isOpen) output_Open;;
  when (negb smooth) output_Reset;;
  osr <- get (fun s => oSampleRate (output s));;
  och <- get (fun s => oChannels (output s));;
  dsr <- decoder_SampleRate;;
  dch <- decoder_Channels;;
  when (negb (osr =? dsr) || negb (och =? dch)) (
    output_SetSampleRate dsr;;
    output_SetChannels dch);;
  modify (set_pos target);;
  modify (set_state statePlaying);;
  startBufAvailableChecker.

Definition stop : M unit :=
  st <- get state;;
  when (negb (pstate_eqb st stateStopped)) (
    stopBufAvailableChecker;;
    output_Close;;
    decoder_Close;;
    modify (set_plist None);;
    modify (set_pos (-1));;
    modify (set_state stateStopped)).

(** The search loop of [setPlaylist]: the first index, counted from [i],
    whose entry is the pointer [cur]. *)
Fixpoint index_from (cur : ptr) (l : Tracks) (i : Z) : option Z :=
  match l with
  | [] => None
  | p :: l' => if Nat.eqb p cur then Some i else index_from cur l' (i + 1)
  end.

Definition setPlaylist (new : option Tracks) : M unit :=
  st <- get state;;
  when (negb (pstate_eqb st stateStopped)) (
    l <- get plist;;
    p <- get pos;;
    cur <- Tracks_Get l p;;
    modify (set_pos (-1));;
    n <- Tracks_Len new;;
    match index_from cur (default [] new) 0 with
    | Some i => modify (set_pos i)
    | None => ret tt
    end);;
  modify (set_plist new).

(** ** The loop *)

(** The messages the exported methods put on [msgChan]; a message with
    any other command would make the loop panic, and no method sends
    one. *)
Inductive message :=
| cmdClose
| cmdNext
| cmdPause
| cmdPlay (plist : option Tracks) (pos : Z)
| cmdPlist (plist : option Tracks)
| cmdPrev
| cmdStop.

(** The [switch msg.cmd] of [loop]; the result is [quit]. *)
Definition handle (msg : message) : M bool :=
  match msg with
  | cmdPlist l =>
      setPlaylist l;;
      p <- get pos;;
      when (p =? -1) stop;;
      ret false
  | cmdPlay l p =>
      setPlaylist l;;
      play p false;;
      ret false
  | cmdClose => stop;; ret true
  | cmdStop => stop;; ret false
  | cmdPause =>
      st <- get state;;
      (if pstate_eqb st statePlaying then
         stopBufAvailableChecker;;
         output_Pause;;
         modify (set_state statePaused)
       else if pstate_eqb st statePaused then
         startBufAvailableChecker;;
         output_Pause;;
         modify (set_state statePlaying)
       else ret tt);;
      ret false
  | cmdNext => p <- get pos;; play (p + 1) false;; ret false
  | cmdPrev => p <- get pos;; play (p - 1) false;; ret false
  end.

(** What the decoder answers during one decode step: its [Time()] and
    the number of bytes [Read] returns. *)
Record readings := { elapsed : Z; nread : Z }.

(** The decode step at the end of each loop iteration.  The size
    [AvailUpdate] reports only sizes the scratch buffer, which is local
    to [loop]; both are left out. *)
Definition tick (r : readings) : M unit :=
  st <- get state;;
  when (pstate_eqb st statePlaying) (
    emit OutputAvailUpdate;;
    l <- get plist;;
    p <- get pos;;
    cur <- Tracks_Get l p;;
    c <- deref cur;;
    go <- (if negb (Part c) then ret true
           else now <- decoder_Time (elapsed r);; ret (now <? End c));;
    read <- (if go : bool then decoder_Read (nread r) else ret 0);;
    if read =? 0 then
      p <- get pos;;
      play (p + 1) true
    else
      emit (OutputWriteAll read)).

(** One iteration of [for !quit]: the select delivers a message or a
    buffer-available wake-up, then the decode step runs. *)
Definition iteration (msg : option message) (r : readings) : M bool :=
  quit <- match msg with
          | Some m => handle m
          | None => ret false
          end;;
  tick r;;
  ret quit.

(** The loop over a given sequence of arrivals, until [quit]. *)
Fixpoint loop (arrivals : list (option message * readings)) : M unit :=
  match arrivals with
  | [] => ret tt
  | (msg, r) :: rest =>
      quit <- iteration msg r;;
      if quit : bool then ret tt else loop rest
  end.

End WithHeap.

(** ** Properties of call traces *)

(** Every event a computation emits, from any state and whatever its
    outcome, passes the test [P]. *)
Definition emits_only {A} (P : event -> bool) (m : M A) : Prop :=
  forall s, forallb P (trace (m s)) = true.

Definition not_reset (e : event) : bool := negb (is_reset e).

(** A computation leaves the observation [f] of the engine unchanged. *)
Definition preserves {A X} (f : playingThread -> X) (m : M A) : Prop :=
  forall s r s' t, m s = (r, s', t) -> f s' = f s.

(** A computation that returns keeps the property [I] of the engine. *)
Definition keeps {A} (I : playingThread -> Prop) (m : M A) : Prop :=
  forall s a s' t, I s -> m s = (Ret a, s', t) -> I s'.

(** What the loop keeps true of the engine between two iterations: the
    checker channel is open exactly while playing and closed while
    paused, and there is a decoder whenever the engine is not stopped. *)
Definition consistent (s : playingThread) : Prop :=
  match state s with
  | stateStopped => True
  | statePlaying => bufAvailable s = chanOpen /\ decoder s <> None
  | statePaused => bufAvailable s = chanClosed /\ decoder s <> None
  end.

(** The messages that ask for an explicit jump. *)
Definition explicit (msg : message) : bool :=
  match msg with
  | cmdPlay _ _ | cmdNext | cmdPrev => true
  | _ => false
  end.

(** The engine, when it is not stopped, has a playlist and a position
    inside it. *)
Definition positioned (s : playingThread) : Prop :=
  state s <> stateStopped ->
  exists l, plist s = Some l /\ 0 <= pos s < Z.of_nat (length l).

(** Both properties of the engine between two iterations of the loop. *)
Definition sound (s : playingThread) : Prop := consistent s /\ positioned s.

Definition is_read (e : event) : bool :=
  match e with DecoderRead _ _ => true | _ => false end.
Definition not_read (e : event) : bool := negb (is_read e).
Definition is_decoder_new (e : event) : bool :=
  match e with DecoderNew _ _ => true | _ => false end.

(** The events that close, make or open a decoder. *)
Definition touches_decoder (e : event) : bool :=
  is_decoder_close e || is_decoder_new e || is_decoder_open e.

(** The messages that end playback or jump to a track. *)
Definition interrupts (msg : message) : bool :=
  match msg with
  | cmdStop | cmdClose | cmdNext | cmdPrev => true
  | _ => false
  end.

(** ** A small album to run the engine on *)

Module Album.

Definition mp3_path (f : string) : Path := {| File := f; Ext := ".mp3" |}.

(** One file cut in three contiguous parts, a second file, a part with
    the same field values as the second part, a file in a format no
    decoder is registered for, and a file the decoder cannot open. *)
Definition side_a1 : Track :=
  {| TPath := mp3_path "a.mp3"; Part := true; Start := 0; End := 120 |}.
Definition side_a2 : Track :=
  {| TPath := mp3_path "a.mp3"; Part := true; Start := 120; End := 180 |}.
Definition side_a3 : Track :=
  {| TPath := mp3_path "a.mp3"; Part := true; Start := 180; End := 240 |}.
Definition single_c : Track :=
  {| TPath := mp3_path "c.mp3"; Part := false; Start := 0; End := 0 |}.
Definition single_x : Track :=
  {| TPath := {| File := "x.ape"; Ext := ".ape" |};
     Part := false; Start := 0; End := 0 |}.
Definition broken : Track :=
  {| TPath := mp3_path "broken.mp3"; Part := false; Start := 0; End := 0 |}.

Definition heap (p : ptr) : option Track :=
  match p with
  | 1%nat => Some side_a1
  | 2%nat => Some side_a2
  | 3%nat => Some side_a3
  | 4%nat => Some single_c
  | 5%nat => Some side_a2
  | 6%nat => Some single_x
  | 7%nat => Some broken
  | _ => None
  end.

Definition mp3 : DecoderDriver :=
  {| open_fails := fun f => String.eqb f "broken.mp3";
     rate_of := fun _ => 44100;
     channels_of := fun _ => 2 |}.

Definition drivers : gmap string DecoderDriver := {[ ".mp3" := mp3 ]}.

Definition speaker : Output :=
  {| oIsOpen := false; oSampleRate := 0; oChannels := 0; oPaused := false |}.

(** The decoder object the first [Play] of a track of a.mp3 makes. *)
Definition first_decoder : Decoder :=
  {| did := 0; driver := mp3; dfile := "a.mp3" |}.

(** The engine as [newPlayingThread] leaves it. *)
Definition idle : playingThread := newPlayingThread drivers speaker.

Definition five : Tracks := [1; 2; 3; 4; 5]%nat.

(** Readings of a decode step that finds [n] more bytes. *)
Definition more (n : Z) : readings :=
  {| elapsed := 0; nread := n |}.

(** The engine after [Play(five, i)] and one decode step. *)
Definition playing (i : Z) : playingThread :=
  final (loop heap [(Some (cmdPlay (Some five) i), more 512)] idle).

(** The same, then [Pause]. *)
Definition paused (i : Z) : playingThread :=
  final (loop heap [(Some (cmdPlay (Some five) i), more 512);
                    (Some cmdPause, more 512)] idle).

(** The five tracks followed by the one nothing can decode, playing the
    fifth; and followed by the one that cannot be opened. *)
Definition six : Tracks := [1; 2; 3; 4; 5; 6]%nat.

Definition before_unknown : playingThread :=
  final (loop heap [(Some (cmdPlay (Some six) 4), more 512)] idle).

Definition five_and_broken : Tracks := [1; 2; 3; 4; 5; 7]%nat.

Definition before_broken : playingThread :=
  final (loop heap [(Some (cmdPlay (Some five_and_broken) 4), more 512)]
           idle).

End Album.

End Engine.

(* ===================================================================== *)
(** * The playlist registry (src/player/player.go)                        *)
(* ===================================================================== *)

Module Registry.

(** Modelled from the spec: [Playlist], declared outside the sources
    at hand; the registry reads its [Name] and its [system] mark. *)
Record Playlist := { Name : string; system : bool }.

(** The errors the registry commands make with [fmt.Errorf]. *)
Inductive error :=
| ErrExists (name : string)       (* "Playlist %s already exists." *)
| ErrSystem                       (* "System playlist can't be deleted" *)
| ErrUnsupported (code : Z).      (* "Unsupported command %s." *)

(** [player.playlists], a [container/list] walked from [Front()]. *)
Definition playlists := list Playlist.

Section WithConstructor.

(** [newPlaylist], declared with [Playlist]. *)
Variable newPlaylist : string -> Playlist.

Fixpoint getPlaylistByName (ps : playlists) (name : string)
    : option Playlist :=
  match ps with
  | [] => None
  | p :: rest =>
      if String.eqb (Name p) name then Some p
      else getPlaylistByName rest name
  end.

(** The result is the returned error and the registry afterwards. *)
Definition cmdPlaylistsAdd (name : string) (ps : playlists)
    : option error * playlists :=
  match getPlaylistByName ps name with
  | Some _ => (Some (ErrExists name), ps)
  | None => (None, ps ++ [newPlaylist name])
  end.

(** The loop of [cmdPlaylistsDelete]: for each element in turn, first the
    test of its [system] mark, then the comparison of its name. *)
Fixpoint cmdPlaylistsDelete (name : string) (ps : playlists)
    : option error * playlists :=
  match ps with
  | [] => (None, [])
  | p :: rest =>
      if system p then (Some ErrSystem, p :: rest)
      else if String.eqb (Name p) name then (None, rest)
      else match cmdPlaylistsDelete name rest with
           | (e, rest') => (e, p :: rest')
           end
  end.

Definition cmdPlaylistsList (ps : playlists) : list Playlist := ps.

(** Modelled from the spec: the command codes, whose constants are
    declared outside the sources at hand. *)
Inductive code :=
| CMD_PLAYLISTS_LIST
| CMD_PLAYLISTS_ADD
| CMD_PLAYLISTS_DELETE
| CMD_OTHER (n : Z).

(** [response]: the error and the result sent back to the caller. *)
Record response := { err : option error; arguments : option (list Playlist) }.

(** One turn of [playingProcess] for a command whose first argument is
    the string [arg]: the response put on [responseChan] and the registry
    afterwards. *)
Definition playingProcess (c : code) (arg : string) (ps : playlists)
    : response * playlists :=
  match c with
  | CMD_PLAYLISTS_LIST =>
      ({| err := None; arguments := Some (cmdPlaylistsList ps) |}, ps)
  | CMD_PLAYLISTS_ADD =>
      match cmdPlaylistsAdd arg ps with
      | (_, ps') => ({| err := None; arguments := None |}, ps')
      end
  | CMD_PLAYLISTS_DELETE =>
      match cmdPlaylistsDelete arg ps with
      | (e, ps') => ({| err := e; arguments := None |}, ps')
      end
  | CMD_OTHER n =>
      ({| err := Some (ErrUnsupported n); arguments := None |}, ps)
  end.

End WithConstructor.

(** A registry with the system playlist first, as the daemon sets it up,
    and one playlist of the user. *)
Definition vfs_playlist : Playlist := {| Name := "*vfs*"; system := true |}.
Definition rock : Playlist := {| Name := "rock"; system := false |}.
Definition shelf : playlists := [vfs_playlist; rock].
Definition plain (name : string) : Playlist :=
  {| Name := name; system := false |}.

End Registry.

(* ===================================================================== *)
(** * The session protocol (server client handler)                        *)
(* ===================================================================== *)

Module Session.

Local Open Scope string_scope.

(** The line feed the handler ends its lines with. *)
Definition nl : string := String (ascii_of_nat 10) EmptyString.

(** [clientHandler]: what has been written to [out] so far. *)
Record clientHandler := { out : string }.

(** Modelled from the spec: what [vfs.Path.List] returns, declared
    outside the sources at hand, as far as [cmdLs] looks at it. *)
Record Tag := {
  Artist : string; Album : string; Title : string;
  Number : Z; Length : Z
}.

Inductive entry :=
| vfsTrack (tag : Tag)
| vfsDirectory (name : string) (path : string)
| vfsOther.

(** Modelled from the spec: the command names of the session layer,
    declared outside the sources at hand; [cmdUnsupported] stands for
    any other name. *)
Inductive commandName :=
| cmdAdd
| cmdAddPlaylist
| cmdLs
| cmdPing
| cmdPlaylists
| cmdQuit
| cmdUnsupported.

(** An argument of a command, an [interface{}]: a string, or a value of
    another type. *)
Inductive value :=
| vString (s : string)
| vOther.

(** Modelled from the spec: [command], declared outside the sources at
    hand, with the two fields [HandleCommand] reads. *)
Record command := { name : commandName; args : list value }.

(** [cmd.args[i].(string)]; [None] is the panic on an index outside
    [args] and on a value that is not a string. *)
Definition arg_string (cmd : command) (i : nat) : option string :=
  match args cmd !! i with
  | Some (vString s) => Some s
  | _ => None
  end.

Section WithCollaborators.

(** The player facade, the virtual file system and [strconv]. *)
Variable player_Add : string -> string -> option string.
Variable player_AddPlaylist : string -> option string.
Variable player_Playlists : list (string * Z).
Variable path_List : string -> string + list entry.
Variable Quote : string -> string.
Variable Itoa : Z -> string.

Definition write (s : string) (cl : clientHandler) : clientHandler :=
  {| out := out cl ++ s |}.

Definition writeLn (s : string) (cl : clientHandler) : clientHandler :=
  write nl (write s cl).

(** [eom], up to the flush of the buffer. *)
Definition eom (cl : clientHandler) : clientHandler := writeLn EmptyString cl.

Definition ok (cl : clientHandler) : clientHandler := writeLn "OK" cl.

Definition error (cl : clientHandler) : clientHandler := writeLn "ERR" cl.

Definition WriteError (e : string) (cl : clientHandler) : clientHandler :=
  eom (writeLn e (error cl)).

(** [Init]: the greeting sent when the connection opens. *)
Definition Init (cl : clientHandler) : clientHandler :=
  eom (writeLn "Chub 0.0" (ok cl)).

Definition handle_cmdAdd (playlist path : string) (cl : clientHandler)
    : clientHandler :=
  match player_Add playlist path with
  | Some e => WriteError e cl
  | None => ok cl
  end.

Definition handle_cmdAddPlaylist (playlist : string) (cl : clientHandler)
    : clientHandler :=
  match player_AddPlaylist playlist with
  | Some e => WriteError e cl
  | None => ok cl
  end.

(** The line written for one entry; [None] is the panic on an entry of
    an unsupported type. *)
Definition write_entry (e : entry) (cl : clientHandler)
    : option clientHandler :=
  match e with
  | vfsTrack tag =>
      let cl := write "Type: TRACK, " cl in
      let cl := write ", " (write (Quote (Artist tag)) (write "Artist: " cl)) in
      let cl := write ", " (write (Quote (Album tag)) (write "Album: " cl)) in
      let cl := write ", " (write (Quote (Title tag)) (write "Title: " cl)) in
      let cl := write ", " (write (Itoa (Number tag)) (write "Number: " cl)) in
      let cl := write (Itoa (Length tag)) (write "Length: " cl) in
      Some (writeLn EmptyString cl)
  | vfsDirectory d path =>
      let cl := write "Type: DIRECTORY, " cl in
      let cl := write ", " (write (Quote d) (write "Name: " cl)) in
      let cl := write (Quote path) (write "Path: " cl) in
      Some (writeLn EmptyString cl)
  | vfsOther => None
  end.

Fixpoint write_entries (es : list entry) (cl : clientHandler)
    : option clientHandler :=
  match es with
  | [] => Some cl
  | e :: rest =>
      match write_entry e cl with
      | Some cl' => write_entries rest cl'
      | None => None
      end
  end.

Definition handle_cmdLs (dir : string) (cl : clientHandler)
    : option clientHandler :=
  match path_List dir with
  | inl e => Some (WriteError e cl)
  | inr entries => write_entries entries (ok cl)
  end.

Definition handle_cmdPing (cl : clientHandler) : clientHandler := ok cl.

Definition write_playlist (p : string * Z) (cl : clientHandler)
    : clientHandler :=
  let cl := write ", " (write (Quote (fst p)) (write "Name: " cl)) in
  let cl := write (Itoa (snd p)) (write "Length: " cl) in
  writeLn EmptyString cl.

Definition handle_cmdPlaylists (cl : clientHandler) : clientHandler :=
  fold_left (fun cl p => write_playlist p cl) player_Playlists (ok cl).

Definition handle_cmdQuit (cl : clientHandler) : clientHandler :=
  writeLn "Bye." (ok cl).

(** [HandleCommand]: the [quit] flag and the handler afterwards; [None]
    is a panic: of the [default] case, of an argument that is missing or
    not a string, or of a handler. *)
Definition HandleCommand (cmd : command) (cl : clientHandler)
    : option (bool * clientHandler) :=
  match
    match name cmd with
    | cmdAdd =>
        match arg_string cmd 0 with
        | Some playlist =>
            match arg_string cmd 1 with
            | Some path => Some (false, handle_cmdAdd playlist path cl)
            | None => None
            end
        | None => None
        end
    | cmdAddPlaylist =>
        match arg_string cmd 0 with
        | Some playlist => Some (false, handle_cmdAddPlaylist playlist cl)
        | None => None
        end
    | cmdLs =>
        match arg_string cmd 0 with
        | Some dir =>
            match handle_cmdLs dir cl with
            | Some cl' => Some (false, cl')
            | None => None
            end
        | None => None
        end
    | cmdPing => Some (false, handle_cmdPing cl)
    | cmdPlaylists => Some (false, handle_cmdPlaylists cl)
    | cmdQuit => Some (true, handle_cmdQuit cl)
    | cmdUnsupported => None
    end
  with
  | Some (quit, cl') => Some (quit, eom cl')
  | None => None
  end.

(** The text of the line [cmdLs] writes for a track, for a directory,
    and the line [cmdPlaylists] writes for a playlist, without the line
    feed. *)
Definition track_line (tag : Tag) : string :=
  "Type: TRACK, " ++ "Artist: " ++ Quote (Artist tag) ++ ", " ++
  "Album: " ++ Quote (Album tag) ++ ", " ++
  "Title: " ++ Quote (Title tag) ++ ", " ++
  "Number: " ++ Itoa (Number tag) ++ ", " ++
  "Length: " ++ Itoa (Length tag).

Definition directory_line (d path : string) : string :=
  "Type: DIRECTORY, " ++ "Name: " ++ Quote d ++ ", " ++
  "Path: " ++ Quote path.

Definition playlist_line (p : string * Z) : string :=
  "Name: " ++ Quote (fst p) ++ ", " ++ "Length: " ++ Itoa (snd p).

(** The line of an entry [cmdLs] has a case for. *)
Definition entry_line (e : entry) : string :=
  match e with
  | vfsTrack tag => track_line tag
  | vfsDirectory d path => directory_line d path
  | vfsOther => EmptyString
  end.


(** The payload lines of a command that succeeds: the entries of the
    directory for LS, the playlists for PLAYLISTS, the farewell for
    QUIT, nothing for the other commands. *)
Definition payload (cmd : command) : list string :=
  match name cmd, arg_string cmd 0 with
  | cmdLs, Some dir =>
      match path_List dir with
      | inr entries => map entry_line entries
      | inl _ => []
      end
  | cmdPlaylists, _ => map playlist_line player_Playlists
  | cmdQuit, _ => ["Bye."]
  | _, _ => []
  end.

End WithCollaborators.

(** The text made of the given lines, each ended by a line feed. *)
Fixpoint unlines (ls : list string) : string :=
  match ls with
  | [] => EmptyString
  | l :: rest => l ++ nl ++ unlines rest
  end.

(** A response that went well: [OK], the payload lines, a blank line. *)
Definition ok_response (payload : list string) : string :=
  "OK" ++ nl ++ unlines payload ++ nl.

(** A response to a failure: [ERR], the message on a line of its own,
    and two blank lines. *)
Definition err_response (msg : string) : string :=
  "ERR" ++ nl ++ msg ++ nl ++ nl ++ nl.



(** A session with nothing behind it: every call of the player succeeds
    and every directory is empty. *)
Definition quiet_Add (_ _ : string) : option string := None.
Definition quiet_AddPlaylist (_ : string) : option string := None.
Definition bare (s : string) : string := s.
Definition digits (_ : Z) : string := "0".
Definition fresh_handler : clientHandler := {| out := EmptyString |}.

Definition LS (dir : string) : command :=
  {| name := cmdLs; args := [vString dir] |}.

(** The entries [cmdLs] has a case for. *)
Definition supported (e : entry) : bool :=
  match e with vfsOther => false | _ => true end.

(** A directory with one track and one directory in it. *)
Definition a_track : entry :=
  vfsTrack {| Artist := "X"; Album := "Y"; Title := "Z";
              Number := 1; Length := 180 |}.
Definition a_directory : entry := vfsDirectory "live" "/music/live".
Definition two_entries (_ : string) : string + list entry :=
  inr [a_track; a_directory].

End Session.

(* ===================================================================== *)
(** * The cue-sheet parser (package cue)                                  *)
(* ===================================================================== *)

Module Cue.

Local Open Scope string_scope.

(** ** The sheet *)

(** Modelled from the spec: the types of the sheet, declared outside
    the sources at hand, with the fields the parser reads and writes. *)
Record Time := { Min : Z; Sec : Z; Frames : Z }.

Record Index := { IndexNumber : Z; IndexTime : Time }.

Inductive TrackFlag :=
| TrackFlagDcp | TrackFlag4ch | TrackFlagPre | TrackFlagScms.

Inductive TrackDataType :=
| DataTypeAudio | DataTypeCdg
| DataTypeMode1_2048 | DataTypeMode1_2352
| DataTypeMode2_2336 | DataTypeMode2_2352
| DataTypeCdi_2336 | DataTypeCdi_2352.

Inductive FileType :=
| FileTypeBinary | FileTypeMotorola | FileTypeAiff | FileTypeWave
| FileTypeMp3.

Record Track := {
  TrackNumber : Z;
  DataType : TrackDataType;
  Flags : list TrackFlag;
  Isrc : string;
  TrackPerformer : string;
  TrackSongwriter : string;
  TrackTitle : string;
  Pregap : option Time;
  Postgap : option Time;
  TrackComments : list string;
  Indexes : list Index
}.

Record File := {
  FileName : string;
  FileType_ : FileType;   (* the field Type *)
  Tracks : list Track
}.

Record Sheet := {
  flags : Z;
  Catalog : string;
  CdTextFile : string;
  Comments : list string;
  Files : list File;
  Performer : string;
  Songwriter : string;
  Title : string
}.

(** [&Sheet{flags: flags}]. *)
Definition newSheet (flags : Z) : Sheet :=
  {| flags := flags; Catalog := EmptyString; CdTextFile := EmptyString;
     Comments := []; Files := []; Performer := EmptyString;
     Songwriter := EmptyString; Title := EmptyString |}.

(** [&Track{Number: number, DataType: dataType}]. *)
Definition newTrack (number : Z) (dataType : TrackDataType) : Track :=
  {| TrackNumber := number; DataType := dataType; Flags := [];
     Isrc := EmptyString; TrackPerformer := EmptyString;
     TrackSongwriter := EmptyString; TrackTitle := EmptyString;
     Pregap := None; Postgap := None; TrackComments := []; Indexes := [] |}.

(** Field assignments. *)
Definition set_Flags (x : list TrackFlag) (r : Track) : Track :=
  {| TrackNumber := TrackNumber r; DataType := DataType r; Flags := x;
     Isrc := Isrc r; TrackPerformer := TrackPerformer r;
     TrackSongwriter := TrackSongwriter r; TrackTitle := TrackTitle r;
     Pregap := Pregap r; Postgap := Postgap r;
     TrackComments := TrackComments r; Indexes := Indexes r |}.
Definition set_Isrc (x : string) (r : Track) : Track :=
  {| TrackNumber := TrackNumber r; DataType := DataType r; Flags := Flags r;
     Isrc := x; TrackPerformer := TrackPerformer r;
     TrackSongwriter := TrackSongwriter r; TrackTitle := TrackTitle r;
     Pregap := Pregap r; Postgap := Postgap r;
     TrackComments := TrackComments r; Indexes := Indexes r |}.
Definition set_TrackPerformer (x : string) (r : Track) : Track :=
  {| TrackNumber := TrackNumber r; DataType := DataType r; Flags := Flags r;
     Isrc := Isrc r; TrackPerformer := x;
     TrackSongwriter := TrackSongwriter r; TrackTitle := TrackTitle r;
     Pregap := Pregap r; Postgap := Postgap r;
     TrackComments := TrackComments r; Indexes := Indexes r |}.
Definition set_TrackSongwriter (x : string) (r : Track) : Track :=
  {| TrackNumber := TrackNumber r; DataType := DataType r; Flags := Flags r;
     Isrc := Isrc r; TrackPerformer := TrackPerformer r;
     TrackSongwriter := x; TrackTitle := TrackTitle r; Pregap := Pregap r;
     Postgap := Postgap r; TrackComments := TrackComments r;
     Indexes := Indexes r |}.
Definition set_TrackTitle (x : string) (r : Track) : Track :=
  {| TrackNumber := TrackNumber r; DataType := DataType r; Flags := Flags r;
     Isrc := Isrc r; TrackPerformer := TrackPerformer r;
     TrackSongwriter := TrackSongwriter r; TrackTitle := x;
     Pregap := Pregap r; Postgap := Postgap r;
     TrackComments := TrackComments r; Indexes := Indexes r |}.
Definition set_Pregap (x : option Time) (r : Track) : Track :=
  {| TrackNumber := TrackNumber r; DataType := DataType r; Flags := Flags r;
     Isrc := Isrc r; TrackPerformer := TrackPerformer r;
     TrackSongwriter := TrackSongwriter r; TrackTitle := TrackTitle r;
     Pregap := x; Postgap := Postgap r; TrackComments := TrackComments r;
     Indexes := Indexes r |}.
Definition set_Postgap (x : option Time) (r : Track) : Track :=
  {| TrackNumber := TrackNumber r; DataType := DataType r; Flags := Flags r;
     Isrc := Isrc r; TrackPerformer := TrackPerformer r;
     TrackSongwriter := TrackSongwriter r; TrackTitle := TrackTitle r;
     Pregap := Pregap r; Postgap := x; TrackComments := TrackComments r;
     Indexes := Indexes r |}.
Definition set_TrackComments (x : list string) (r : Track) : Track :=
  {| TrackNumber := TrackNumber r; DataType := DataType r; Flags := Flags r;
     Isrc := Isrc r; TrackPerformer := TrackPerformer r;
     TrackSongwriter := TrackSongwriter r; TrackTitle := TrackTitle r;
     Pregap := Pregap r; Postgap := Postgap r; TrackComments := x;
     Indexes := Indexes r |}.
Definition set_Indexes (x : list Index) (r : Track) : Track :=
  {| TrackNumber := TrackNumber r; DataType := DataType r; Flags := Flags r;
     Isrc := Isrc r; TrackPerformer := TrackPerformer r;
     TrackSongwriter := TrackSongwriter r; TrackTitle := TrackTitle r;
     Pregap := Pregap r; Postgap := Postgap r;
     TrackComments := TrackComments r; Indexes := x |}.
Definition set_Tracks (x : list Track) (r : File) : File :=
  {| FileName := FileName r; FileType_ := FileType_ r; Tracks := x |}.
Definition set_Catalog (x : string) (r : Sheet) : Sheet :=
  {| flags := flags r; Catalog := x; CdTextFile := CdTextFile r;
     Comments := Comments r; Files := Files r; Performer := Performer r;
     Songwriter := Songwriter r; Title := Title r |}.
Definition set_CdTextFile (x : string) (r : Sheet) : Sheet :=
  {| flags := flags r; Catalog := Catalog r; CdTextFile := x;
     Comments := Comments r; Files := Files r; Performer := Performer r;
     Songwriter := Songwriter r; Title := Title r |}.
Definition set_Comments (x : list string) (r : Sheet) : Sheet :=
  {| flags := flags r; Catalog := Catalog r; CdTextFile := CdTextFile r;
     Comments := x; Files := Files r; Performer := Performer r;
     Songwriter := Songwriter r; Title := Title r |}.
Definition set_Files (x : list File) (r : Sheet) : Sheet :=
  {| flags := flags r; Catalog := Catalog r; CdTextFile := CdTextFile r;
     Comments := Comments r; Files := x; Performer := Performer r;
     Songwriter := Songwriter r; Title := Title r |}.
Definition set_Performer (x : string) (r : Sheet) : Sheet :=
  {| flags := flags r; Catalog := Catalog r; CdTextFile := CdTextFile r;
     Comments := Comments r; Files := Files r; Performer := x;
     Songwriter := Songwriter r; Title := Title r |}.
Definition set_Songwriter (x : string) (r : Sheet) : Sheet :=
  {| flags := flags r; Catalog := Catalog r; CdTextFile := CdTextFile r;
     Comments := Comments r; Files := Files r; Performer := Performer r;
     Songwriter := x; Title := Title r |}.
Definition set_Title (x : string) (r : Sheet) : Sheet :=
  {| flags := flags r; Catalog := Catalog r; CdTextFile := CdTextFile r;
     Comments := Comments r; Files := Files r; Performer := Performer r;
     Songwriter := Songwriter r; Title := x |}.

(** ** Errors and results *)

Inductive error :=
| ErrForeign (msg : string)
    (* an error of the reader, parseCommand, parseTime or strconv.Atoi *)
| ErrLine (lineNumber : Z) (e : error)          (* "Line %d. %s" *)
| ErrUnknownCommand (lineNumber : Z) (cmd : string)
| ErrParamsCount (lineNumber : Z) (cmd : string) (expected received : Z)
| ErrCatalog (params : list string)
| ErrFileType (t : string)
| ErrTrackFlag (flag : string)
| ErrTrackBeforeFlags
| ErrIndexNumber            (* "Invalid index number value." *)
| ErrTrackExpected          (* "TRACK command expected." *)
| ErrIndex01                (* "0 or 1 index number expected." *)
| ErrIndexExpected (n : Z)  (* "%d index number expected." *)
| ErrIsrcExpected           (* "ISRC command expected." *)
| ErrIsrc (isrc : string)
| ErrUnexpectedPregap
| ErrUnexpectedTrack
| ErrTrackNumber            (* "Bad track number value." *)
| ErrDataType (t : string)
| ErrTrackSequence (expected received : Z).

(** What a call gives back: a value, a returned error, or a run-time
    panic (an index outside [params]). *)
Inductive result (A : Type) :=
| Ok (a : A)
| Error (e : error)
| Panic.
Arguments Ok {A} a.
Arguments Error {A} e.
Arguments Panic {A}.

Definition bind {A B} (r : result A) (f : A -> result B) : result B :=
  match r with
  | Ok a => f a
  | Error e => Error e
  | Panic => Panic
  end.

Declare Scope cue_scope.
Delimit Scope cue_scope with cue.
Notation "x <- c1 ;; c2" := (bind c1 (fun x => c2))
  (at level 100, c1 at next level, right associativity) : cue_scope.
Local Open Scope cue_scope.

(** A call that returns [(value, err)]. *)
Definition lift {A} (r : error + A) : result A :=
  match r with
  | inl e => Error e
  | inr a => Ok a
  end.

(** [params[i]]. *)
Definition param (i : nat) (params : list string) : result string :=
  match params !! i with
  | Some p => Ok p
  | None => Panic
  end.

(** What the reader yields before [io.EOF]: lines, or an error. *)
Inductive read :=
| Line (buf : string)
| ReadError (e : error).

(** ** The current file and track *)

Definition getCurrentFile (sheet : Sheet) : option File := last (Files sheet).

Definition getCurrentTrack (sheet : Sheet) : option Track :=
  match getCurrentFile sheet with
  | None => None
  | Some file => last (Tracks file)
  end.

(** [getFileLastIndex]: the last index of the last track that has one.
    [parseIndex] uses it only to decide whether to log a remark. *)
Definition getFileLastIndex (file : File) : option Index :=
  last (concat (map Indexes (Tracks file))).

(** Writing through the pointer to the last element of a slice. *)
Fixpoint update_last {A} (f : A -> A) (l : list A) : list A :=
  match l with
  | [] => []
  | [x] => [f x]
  | x :: rest => x :: update_last f rest
  end.

(** Writing through the pointer [getCurrentTrack] returned. *)
Definition update_current_track (f : Track -> Track) (sheet : Sheet) : Sheet :=
  set_Files
    (update_last (fun file => set_Tracks (update_last f (Tracks file)) file)
       (Files sheet))
    sheet.

(** ** The patterns given to [regexp.MatchString] *)

Definition in_range (lo hi : nat) (c : ascii) : bool :=
  (lo <=? nat_of_ascii c)%nat && (nat_of_ascii c <=? hi)%nat.

(** [[0-9]] *)
Definition is_digit (c : ascii) : bool := in_range 48 57 c.

(** [[0-9a-zA-z]]: the last range runs from [A] to lower-case [z]. *)
Definition is_isrc_char (c : ascii) : bool :=
  is_digit c || in_range 97 122 c || in_range 65 122 c.

(** Thirteen digits. *)
Definition catalog_re (num : string) : bool :=
  let cs := list_ascii_of_string num in
  (length cs =? 13)%nat && forallb is_digit cs.

(** Five characters of the class, then seven digits. *)
Definition isrc_re (isrc : string) : bool :=
  let cs := list_ascii_of_string isrc in
  (length cs =? 12)%nat &&
  forallb is_isrc_char (take 5 cs) && forallb is_digit (drop 5 cs).

(** [strings.Join(params, " ")]. *)
Fixpoint join (params : list string) : string :=
  match params with
  | [] => EmptyString
  | [p] => p
  | p :: rest => p ++ " " ++ join rest
  end.

Section WithHelpers.

(** Functions of the package and of the Go library that are declared
    outside the file at hand.  [Atoi] yields an [int]; the parser only
    takes the predecessor of a track number that is at least 1 and the
    successor of an index number that is at most 99, so the machine
    integer never wraps. *)
Variable TrimSpace : string -> string.
Variable parseCommand : string -> error + (string * list string).
Variable parseTime : string -> error + (Z * Z * Z).
Variable Atoi : string -> error + Z.
Variable ToTitle : string -> string.
Variable stringTruncateMaybe : Sheet -> string -> Z -> string.

(** ** The command parsers *)

Definition commandParser : Type := list string -> Sheet -> result Sheet.

Definition parseCatalog : commandParser := fun params sheet =>
  num <- param 0 params;;
  if catalog_re num then Ok (set_Catalog num sheet)
  else Error (ErrCatalog params).

Definition parseCdTextFile : commandParser := fun params sheet =>
  p <- param 0 params;;
  Ok (set_CdTextFile p sheet).

Definition parseFileType (t : string) : result FileType :=
  let t := ToTitle t in
  if String.eqb t "BINARY" then Ok FileTypeBinary
  else if String.eqb t "MOTOROLA" then Ok FileTypeMotorola
  else if String.eqb t "AIFF" then Ok FileTypeAiff
  else if String.eqb t "WAVE" then Ok FileTypeWave
  else if String.eqb t "MP3" then Ok FileTypeMp3
  else Error (ErrFileType t).

Definition parseFile : commandParser := fun params sheet =>
  t <- param 1 params;;
  fileType <- parseFileType t;;
  name <- param 0 params;;
  Ok (set_Files
        (Files sheet ++ [{| FileName := name; FileType_ := fileType; Tracks := [] |}])
        sheet).

Definition flagParser (flag : string) : result TrackFlag :=
  if String.eqb flag "DCP" then Ok TrackFlagDcp
  else if String.eqb flag "4CH" then Ok TrackFlag4ch
  else if String.eqb flag "PRE" then Ok TrackFlagPre
  else if String.eqb flag "SCMS" then Ok TrackFlagScms
  else Error (ErrTrackFlag flag).

(** The loop of [parseFlags] over the parameters. *)
Fixpoint parse_flags (params : list string) : result (list TrackFlag) :=
  match params with
  | [] => Ok []
  | flagStr :: rest =>
      flag <- flagParser flagStr;;
      more <- parse_flags rest;;
      Ok (flag :: more)
  end.

Definition parseFlags : commandParser := fun params sheet =>
  match getCurrentTrack sheet with
  | None => Error ErrTrackBeforeFlags
  | Some _ =>
      fs <- parse_flags params;;
      Ok (update_current_track (fun t => set_Flags (Flags t ++ fs) t) sheet)
  end.

Definition parseIndex : commandParser := fun params sheet =>
  p1 <- param 1 params;;
  tm <- lift (parseTime p1);;
  let '(min, sec, frames) := tm in
  p0 <- param 0 params;;
  number <- lift (Atoi p0);;
  if ((number <? 0) || (number >? 99))%Z then Error ErrIndexNumber
  else
    match getCurrentTrack sheet with
    | None => Error ErrTrackExpected
    | Some track =>
        check <-
          match last (Indexes track) with
          | None =>
              if (number >=? 2)%Z then Error ErrIndex01 else Ok tt
          | Some prev =>
              let numberExpected := IndexNumber prev + 1 in
              if (numberExpected =? number)%Z then Ok tt
              else Error (ErrIndexExpected numberExpected)
          end;;
        Ok (update_current_track
              (fun t =>
                 set_Indexes
                   (Indexes t ++
                    [{| IndexNumber := number;
                        IndexTime :=
                          {| Min := min; Sec := sec; Frames := frames |} |}])
                   t)
              sheet)
    end.

Definition parseIsrc : commandParser := fun params sheet =>
  isrc <- param 0 params;;
  match getCurrentTrack sheet with
  | None => Error ErrTrackExpected
  | Some track =>
      if negb (length (Indexes track) =? 0)%nat then Error ErrIsrcExpected
      else if isrc_re isrc then
        Ok (update_current_track (set_Isrc isrc) sheet)
      else Error (ErrIsrc isrc)
  end.

Definition parsePerformer : commandParser := fun params sheet =>
  p <- param 0 params;;
  let performer := stringTruncateMaybe sheet p 80 in
  match getCurrentTrack sheet with
  | None => Ok (set_Performer performer sheet)
  | Some _ => Ok (update_current_track (set_TrackPerformer performer) sheet)
  end.

Definition parsePostgap : commandParser := fun params sheet =>
  match getCurrentTrack sheet with
  | None => Error ErrTrackExpected
  | Some _ =>
      p <- param 0 params;;
      tm <- lift (parseTime p);;
      let '(min, sec, frames) := tm in
      Ok (update_current_track
            (set_Postgap (Some {| Min := min; Sec := sec; Frames := frames |}))
            sheet)
  end.

Definition parsePregap : commandParser := fun params sheet =>
  match getCurrentTrack sheet with
  | None => Error ErrTrackExpected
  | Some track =>
      if negb (length (Indexes track) =? 0)%nat then Error ErrUnexpectedPregap
      else
        p <- param 0 params;;
        tm <- lift (parseTime p);;
      let '(min, sec, frames) := tm in
        Ok (update_current_track
              (set_Pregap (Some {| Min := min; Sec := sec; Frames := frames |}))
              sheet)
  end.

Definition parseRem : commandParser := fun params sheet =>
  let comment := join params in
  match getCurrentTrack sheet with
  | None => Ok (set_Comments (Comments sheet ++ [comment]) sheet)
  | Some _ =>
      Ok (update_current_track
            (fun t => set_TrackComments (TrackComments t ++ [comment]) t)
            sheet)
  end.

Definition parseSongWriter : commandParser := fun params sheet =>
  p <- param 0 params;;
  let songwriter := stringTruncateMaybe sheet p 80 in
  match getCurrentTrack sheet with
  | None => Ok (set_Songwriter songwriter sheet)
  | Some _ => Ok (update_current_track (set_TrackSongwriter songwriter) sheet)
  end.

Definition parseTitle : commandParser := fun params sheet =>
  p <- param 0 params;;
  let title := stringTruncateMaybe sheet p 80 in
  match getCurrentTrack sheet with
  | None => Ok (set_Title title sheet)
  | Some _ => Ok (update_current_track (set_TrackTitle title) sheet)
  end.

Definition parseDataType (t : string) : result TrackDataType :=
  if String.eqb t "AUDIO" then Ok DataTypeAudio
  else if String.eqb t "CDG" then Ok DataTypeCdg
  else if String.eqb t "MODE1/2048" then Ok DataTypeMode1_2048
  else if String.eqb t "MODE1/2352" then Ok DataTypeMode1_2352
  else if String.eqb t "MODE2/2336" then Ok DataTypeMode2_2336
  else if String.eqb t "MODE2/2352" then Ok DataTypeMode2_2352
  else if String.eqb t "CDI/2336" then Ok DataTypeCdi_2336
  else if String.eqb t "CDI/2352" then Ok DataTypeCdi_2352
  else Error (ErrDataType t).

Definition parseTrack : commandParser := fun params sheet =>
  match getCurrentFile sheet with
  | None => Error ErrUnexpectedTrack
  | Some file =>
      numberStr <- param 0 params;;
      dataTypeStr <- param 1 params;;
      number <- lift (Atoi numberStr);;
      if (number <? 1)%Z then Error ErrTrackNumber
      else
        dataType <- parseDataType dataTypeStr;;
        check <-
          match last (Tracks file) with
          | Some prev =>
              if negb (TrackNumber prev =? number - 1)%Z
              then Error (ErrTrackSequence (number - 1) number)
              else Ok tt
          | None => Ok tt
          end;;
        Ok (set_Files
              (update_last
                 (fun f => set_Tracks (Tracks f ++ [newTrack number dataType]) f)
                 (Files sheet))
              sheet)
  end.

(** ** The table of commands and the loop over the lines *)

(** [commandParserDescriptor] as a pair; -1 parameters stands for any
    number. *)
Definition descriptors : list (string * (Z * commandParser)) :=
  [ ("CATALOG", (1, parseCatalog));
    ("CDTEXTFILE", (1, parseCdTextFile));
    ("FILE", (2, parseFile));
    ("FLAGS", (-1, parseFlags));
    ("INDEX", (2, parseIndex));
    ("ISRC", (1, parseIsrc));
    ("PERFORMER", (1, parsePerformer));
    ("POSTGAP", (1, parsePostgap));
    ("PREGAP", (1, parsePregap));
    ("REM", (-1, parseRem));
    ("SONGWRITER", (1, parseSongWriter));
    ("TITLE", (1, parseTitle));
    ("TRACK", (2, parseTrack)) ].

Definition parsersMap : gmap string (Z * commandParser) :=
  list_to_map descriptors.

(** The loop of [Parse] over what the reader yields, from the given line
    number and sheet; the result is the line number and the sheet at
    [io.EOF]. *)
Fixpoint parse_lines (input : list read) (lineNumber : Z) (sheet : Sheet)
    : result (Z * Sheet) :=
  match input with
  | [] => Ok (lineNumber, sheet)
  | ReadError e :: _ => Error e
  | Line buf :: rest =>
      let line := TrimSpace buf in
      if (String.length line =? 0)%nat then parse_lines rest lineNumber sheet
      else
        match parseCommand line with
        | inl e => Error (ErrLine lineNumber e)
        | inr (cmd, params) =>
            match parsersMap !! cmd with
            | None => Error (ErrUnknownCommand lineNumber cmd)
            | Some (paramsExpected, parser) =>
                let paramsRecieved := Z.of_nat (length params) in
                if (negb (paramsExpected =? -1) &&
                    negb (paramsExpected =? paramsRecieved))%Z
                then Error (ErrParamsCount lineNumber cmd
                              paramsExpected paramsRecieved)
                else
                  match parser params sheet with
                  | Ok sheet' => parse_lines rest (lineNumber + 1) sheet'
                  | Error e => Error (ErrLine lineNumber e)
                  | Panic => Panic
                  end
            end
        end
  end.

(** [Parse]: the sheet, or the error returned with a nil sheet. *)
Definition Parse (reader : list read) (flags : Z) : result Sheet :=
  r <- parse_lines reader 1 (newSheet flags);;
  Ok (snd r).

(** ** What the parser checks about an INDEX *)

(** The line is the command [name], with some parameters. *)
Definition is_command (name : string) (r : read) : Prop :=
  match r with
  | Line buf =>
      exists params, parseCommand (TrimSpace buf) = inr (name, params)
  | ReadError _ => False
  end.

(** The index number [number] does not fit the sheet read so far: it is
    outside 0..99, or there is no track yet, or the track has no index
    and the number is 2 or more, or the number is not the successor of
    the number of the last index of the track. *)
Definition index_out_of_order (sheet : Sheet) (number : Z) : Prop :=
  (number < 0)%Z \/ (99 < number)%Z \/
  match getCurrentTrack sheet with
  | None => True
  | Some track =>
      match last (Indexes track) with
      | None => (2 <= number)%Z
      | Some prev => number <> IndexNumber prev + 1
      end
  end.

(** No file of the sheet has a track yet. *)
Definition no_tracks (sheet : Sheet) : Prop :=
  Forall (fun f => Tracks f = []) (Files sheet).

(** A line [Parse] skips: nothing is left of it after [TrimSpace]. *)
Definition is_blank (r : read) : bool :=
  match r with
  | Line buf => (String.length (TrimSpace buf) =? 0)%nat
  | ReadError _ => false
  end.

(** The commands that write to the current track and have no other
    place to write to. *)
Definition track_commands : list string :=
  ["FLAGS"; "INDEX"; "ISRC"; "POSTGAP"; "PREGAP"].

End WithHelpers.

(** ** The numbering of a sheet *)

(** Each number is the one before it plus one. *)
Fixpoint consecutive (ns : list Z) : bool :=
  match ns with
  | a :: (b :: _) as rest => (b =? a + 1)%Z && consecutive rest
  | _ => true
  end.

(** The index numbers of a track start at 0 or 1, go up by one and stay
    below 100. *)
Definition indexes_numbered (t : Track) : bool :=
  let ns := map IndexNumber (Indexes t) in
  match ns with
  | [] => true
  | n :: _ => (n =? 0)%Z || (n =? 1)%Z
  end && consecutive ns && forallb (fun n => (n <=? 99)%Z) ns.

(** The track numbers of a file start at 1 or more and go up by one. *)
Definition tracks_numbered (f : File) : bool :=
  let ns := map TrackNumber (Tracks f) in
  match ns with
  | [] => true
  | n :: _ => (1 <=? n)%Z
  end && consecutive ns.

Definition well_numbered (sheet : Sheet) : bool :=
  forallb (fun f => tracks_numbered f && forallb indexes_numbered (Tracks f))
    (Files sheet).

(** ** Plain helpers to run the parser with *)

Module Plain.

(** Words separated by single spaces. *)
Fixpoint words_from (s : string) (cur : string) : list string :=
  match s with
  | EmptyString => [cur]
  | String c s' =>
      if Ascii.eqb c " "%char then cur :: words_from s' EmptyString
      else words_from s' (cur ++ String c EmptyString)
  end.

Definition parseCommand (line : string) : error + (string * list string) :=
  match words_from line EmptyString with
  | cmd :: params => inr (cmd, params)
  | [] => inl (ErrForeign "no command")
  end.

Fixpoint digits_value (cs : list ascii) (acc : Z) : option Z :=
  match cs with
  | [] => Some acc
  | c :: rest =>
      if is_digit c
      then digits_value rest (10 * acc + Z.of_nat (nat_of_ascii c - 48))
      else None
  end.

Definition Atoi (s : string) : error + Z :=
  match list_ascii_of_string s with
  | [] => inl (ErrForeign "invalid syntax")
  | cs => match digits_value cs 0 with
          | Some n => inr n
          | None => inl (ErrForeign "invalid syntax")
          end
  end.

Definition parseTime (_ : string) : error + (Z * Z * Z) := inr (0, 0, 0).
Definition same (s : string) : string := s.
Definition keep (_ : Sheet) (s : string) (_ : Z) : string := s.

Definition Parse := Cue.Parse same parseCommand parseTime Atoi same keep.

(** Three sheets: a well-formed one, an INDEX before any TRACK, and a
    track whose indexes jump from 01 to 03. *)
Definition well_formed : list read :=
  [Line "FILE a.wav WAVE"; Line "TRACK 01 AUDIO";
   Line "INDEX 00 00:00:00"; Line "INDEX 01 00:02:00";
   Line "TRACK 02 AUDIO"; Line "INDEX 01 03:10:00"].

Definition index_first : list read :=
  [Line "FILE a.wav WAVE"; Line "INDEX 01 00:00:00"].

Definition index_jump : list read :=
  [Line "FILE a.wav WAVE"; Line "TRACK 01 AUDIO";
   Line "INDEX 01 00:00:00"; Line "INDEX 03 00:02:00";
   Line "TRACK 02 AUDIO"].

(** The well-formed sheet with empty lines in it, a sheet with an empty
    line before an unknown command, and the sheet after the first two
    lines of the well-formed one. *)
Definition spaced : list read :=
  [Line "FILE a.wav WAVE"; Line EmptyString; Line "TRACK 01 AUDIO";
   Line "INDEX 00 00:00:00"; Line "INDEX 01 00:02:00"; Line EmptyString;
   Line "TRACK 02 AUDIO"; Line "INDEX 01 03:10:00"].

Definition one_track : Sheet :=
  {| flags := 0; Catalog := EmptyString; CdTextFile := EmptyString;
     Comments := [];
     Files := [{| FileName := "a.wav"; FileType_ := FileTypeWave;
                  Tracks := [newTrack 1 DataTypeAudio] |}];
     Performer := EmptyString; Songwriter := EmptyString;
     Title := EmptyString |}.

End Plain.

End Cue.

(* ===================================================================== *)
(** * Properties of the playback engine                                   *)
(* ===================================================================== *)

Module EngineSpec.
Import Engine.
Local Open Scope engine_scope.

(** ** Running a sequence apart *)

Lemma bind_inv {A B} (m : M A) (f : A -> M B) s r s' t :
  bind m f s = (r, s', t) ->
  (exists p, r = Abort p /\ m s = (Abort p, s', t)) \/
  (exists a s1 t1 t2,
      m s = (Ret a, s1, t1) /\ f a s1 = (r, s', t2) /\ t = t1 ++ t2).
Proof.
  unfold bind. destruct (m s) as [[[a|p] s1] t1].
  - destruct (f a s1) as [[r2 s2] t2] eqn:E. intros H; inversion H; subst.
    right. eauto 10.
  - intros H; inversion H; subst. left; eauto.
Qed.

Lemma run_eta {A} (x : result A * playingThread * list event) :
  x = (outcome x, final x, trace x).
Proof. destruct x as [[r s] t]. reflexivity. Qed.

(** ** Traces that avoid a kind of event *)

Lemma emits_only_bind {A B} P (m : M A) (f : A -> M B) :
  emits_only P m -> (forall a, emits_only P (f a)) -> emits_only P (bind m f).
Proof.
  intros Hm Hf s. unfold bind. specialize (Hm s).
  destruct (m s) as [[[a|p] s1] t1]; simpl in *; auto.
  specialize (Hf a s1). destruct (f a s1) as [[r2 s2] t2]; simpl in *.
  rewrite forallb_app, Hm, Hf. reflexivity.
Qed.

Lemma emits_only_ret {A} P (a : A) : emits_only P (ret a).
Proof. intros s; reflexivity. Qed.

Lemma emits_only_panic {A} P p : emits_only P (@panic A p).
Proof. intros s; reflexivity. Qed.

Lemma emits_only_get {A} P (f : playingThread -> A) : emits_only P (get f).
Proof. intros s; reflexivity. Qed.

Lemma emits_only_modify P f : emits_only P (modify f).
Proof. intros s; reflexivity. Qed.

Lemma emits_only_emit P e : P e = true -> emits_only P (emit e).
Proof. intros H s; simpl. rewrite H. reflexivity. Qed.

Lemma emits_only_run {A} P (m : M A) s r s' t :
  emits_only P m -> m s = (r, s', t) -> forallb P t = true.
Proof. intros H E. specialize (H s). rewrite E in H. exact H. Qed.

Create HintDb quiet_db.

(** Decides [emits_only] goals by following the structure of the code;
    lemmas about whole functions come from [quiet_db]. *)
Ltac quiet :=
  repeat first
    [ apply emits_only_ret | apply emits_only_panic | apply emits_only_get
    | apply emits_only_modify | apply emits_only_emit; reflexivity
    | solve [auto with quiet_db nocore]
    | apply emits_only_bind; [ | intros ? ]
    | match goal with
      | |- emits_only _ (when ?b _) => destruct b; unfold when
      | |- emits_only _ (if ?b then _ else _) => destruct b
      | |- emits_only _ (match ?x with _ => _ end) => destruct x
      | |- emits_only _ (?f _ _ _ _) => unfold f
      | |- emits_only _ (?f _ _ _) => unfold f
      | |- emits_only _ (?f _ _) => unfold f
      | |- emits_only _ (?f _) => unfold f
      | |- emits_only _ ?f => unfold f
      end ].

Lemma count_app p (t1 t2 : list event) :
  count p (t1 ++ t2) = (count p t1 + count p t2)%nat.
Proof. unfold count. rewrite filter_app, length_app. reflexivity. Qed.

Lemma count_quiet p (t : list event) :
  forallb (fun e => negb (p e)) t = true -> count p t = 0%nat.
Proof.
  unfold count. induction t as [|e t IH]; simpl; [reflexivity|].
  intros H. apply andb_prop in H as [He Ht].
  rewrite filter_cons. destruct (decide (p e = true)) as [Hp|Hp].
  - rewrite Hp in He. discriminate.
  - auto.
Qed.

(** ** Observations a computation leaves alone *)

Lemma preserves_bind {A B X} (f : playingThread -> X) (m : M A) (k : A -> M B) :
  preserves f m -> (forall a, preserves f (k a)) -> preserves f (bind m k).
Proof.
  intros Hm Hk s r s' t H. apply bind_inv in H.
  destruct H as [(p & -> & H)|(a & s1 & t1 & t2 & H1 & H2 & ->)].
  - eapply Hm; eauto.
  - rewrite (Hk _ _ _ _ _ H2). eapply Hm; eauto.
Qed.

Lemma preserves_ret {A X} (f : playingThread -> X) (a : A) : preserves f (ret a).
Proof. intros s r s' t H. inversion H. reflexivity. Qed.

Lemma preserves_panic {A X} (f : playingThread -> X) p : preserves f (@panic A p).
Proof. intros s r s' t H. inversion H. reflexivity. Qed.

Lemma preserves_get {A X} (f : playingThread -> X) (g : playingThread -> A) :
  preserves f (get g).
Proof. intros s r s' t H. inversion H. reflexivity. Qed.

Lemma preserves_emit {X} (f : playingThread -> X) e : preserves f (emit e).
Proof. intros s r s' t H. inversion H. reflexivity. Qed.

Lemma preserves_modify {X} (f : playingThread -> X) g :
  (forall s, f (g s) = f s) -> preserves f (modify g).
Proof. intros Hg s r s' t H. inversion H. apply Hg. Qed.

(** Decides [preserves] goals by following the structure of the code. *)
Ltac frame :=
  repeat first
    [ apply preserves_ret | apply preserves_panic | apply preserves_get
    | apply preserves_emit | apply preserves_modify; intros ?; reflexivity
    | apply preserves_bind; [ | intros ? ]
    | match goal with
      | |- preserves _ (when ?b _) => destruct b; unfold when
      | |- preserves _ (if ?b then _ else _) => destruct b
      | |- preserves _ (match ?x with _ => _ end) => destruct x
      | |- preserves _ (?f _ _ _ _) => unfold f
      | |- preserves _ (?f _ _ _) => unfold f
      | |- preserves _ (?f _ _) => unfold f
      | |- preserves _ (?f _) => unfold f
      | |- preserves _ ?f => unfold f
      end ].

(** ** Walking along a run that returned *)

(** Splits the first command off a run that returned. *)
Ltac split_run H H1 :=
  apply bind_inv in H;
  destruct H as [(? & ? & H)|(? & ? & ? & ? & H1 & H & ->)];
  [ discriminate | ].

(** The first command is a primitive: compute it. *)
Ltac spine_prim H :=
  let H1 := fresh "H" in
  split_run H H1;
  cbv [get ret modify emit when negb output_Reset Tracks_Len] in H1;
  inversion H1; subst; clear H1; simpl in H.

(** The first command is a block: keep that its events pass [P]. *)
Ltac spine_quiet P H :=
  let H1 := fresh "Hq" in
  split_run H H1;
  apply (emits_only_run P) in H1; [ | solve [quiet] ]; simpl in H.

(** ** Evaluating the code forwards *)

Ltac unfold_engine :=
  cbv [play stop setPlaylist handle tick iteration
       stopBufAvailableChecker startBufAvailableChecker
       decoder_Close decoder_Seek decoder_SampleRate decoder_Channels
       decoder_Time decoder_Read with_decoder new_decoder new_decoder_Open
       output_Open output_Close output_Pause output_Reset
       output_SetSampleRate output_SetChannels
       Tracks_Len Tracks_Get deref
       bind ret panic emit get modify when outcome final trace
       set_output set_plist set_pos set_state set_decoder set_bufAvailable
       set_fresh
       decoders output plist pos state decoder bufAvailable fresh
       oIsOpen oSampleRate oChannels oPaused
       fst snd negb orb andb pstate_eqb].

(** Case analysis on an innermost test the evaluation is stuck on. *)
Ltac case_stuck :=
  match goal with
  | |- context [match ?x with _ => _ end] =>
      lazymatch x with
      | context [match _ with _ => _ end] => fail
      | _ => destruct x eqn:?
      end
  end.

(** ** Properties a computation keeps *)

Lemma keeps_bind {A B} I (m : M A) (k : A -> M B) :
  keeps I m -> (forall a, keeps I (k a)) -> keeps I (bind m k).
Proof.
  intros Hm Hk s b s' t Hs H. apply bind_inv in H.
  destruct H as [(p & Hp & _)|(a & s1 & t1 & t2 & H1 & H2 & _)];
    [discriminate|].
  eapply Hk; [|exact H2]. eapply Hm; eauto.
Qed.

Lemma keeps_ret {A} I (a : A) : keeps I (ret a).
Proof. intros s b s' t Hs H. inversion H; subst. exact Hs. Qed.

Lemma keeps_panic {A} I p : keeps I (@panic A p).
Proof. intros s b s' t Hs H. inversion H. Qed.

Lemma keeps_get {A} I (f : playingThread -> A) : keeps I (get f).
Proof. intros s b s' t Hs H. inversion H; subst. exact Hs. Qed.

Lemma keeps_emit I e : keeps I (emit e).
Proof. intros s b s' t Hs H. inversion H; subst. exact Hs. Qed.

(** A property that only looks at [f] is kept by what preserves [f]. *)
Lemma preserves_keeps {A X} (f : playingThread -> X) I (m : M A) :
  (forall s s', f s' = f s -> I s -> I s') ->
  preserves f m -> keeps I m.
Proof. intros HI Hm s a s' t Hs H. eapply HI; eauto. Qed.

Create HintDb keep_db.

(** Decides [keeps] goals for code that changes the engine only through
    the functions of [keep_db]. *)
Ltac keep :=
  repeat first
    [ apply keeps_ret | apply keeps_panic | apply keeps_get
    | apply keeps_emit
    | solve [auto with keep_db nocore]
    | apply keeps_bind; [ | intros ? ]
    | match goal with
      | |- keeps _ (when ?b _) => destruct b; unfold when
      | |- keeps _ (if ?b then _ else _) => destruct b
      | |- keeps _ (match ?x with _ => _ end) => destruct x
      | |- keeps _ (handle _ _) => unfold handle
      | |- keeps _ (tick _ _) => unfold tick
      | |- keeps _ (iteration _ _ _) => unfold iteration
      | |- keeps _ (Tracks_Get _ _) => unfold Tracks_Get
      | |- keeps _ (Tracks_Len _) => unfold Tracks_Len
      | |- keeps _ (deref _ _) => unfold deref
      | |- keeps _ (decoder_Time _) => unfold decoder_Time, with_decoder
      | |- keeps _ (decoder_Read _) => unfold decoder_Read, with_decoder
      end ].





Section WithHeap.
Variable heap : ptr -> option Track.

(** A natural advance never resets the output, however it ends. *)
Lemma play_smooth_no_reset p : emits_only not_reset (play heap p true).
Proof. quiet. Qed.

(** Nothing but the [Reset] of [play] resets the output. *)
Lemma setPlaylist_no_reset l : emits_only not_reset (setPlaylist l).
Proof. quiet. Qed.

Lemma Tracks_Get_inv l i (s s' : playingThread) p t :
  Tracks_Get l i s = (Ret p, s', t) ->
  exists l', l = Some l' /\ 0 <= i < Z.of_nat (length l')
             /\ l' !! Z.to_nat i = Some p /\ s' = s /\ t = [].
Proof.
  unfold Tracks_Get. destruct l as [l'|]; [|discriminate].
  destruct (i <? 0) eqn:Ei; [discriminate|].
  destruct (l' !! Z.to_nat i) eqn:El; [|discriminate].
  intros H; inversion H; subst. exists l'. repeat split; auto; try lia.
  apply lookup_lt_Some in El. lia.
Qed.

Lemma stop_checker_plist b : preserves plist (when b stopBufAvailableChecker).
Proof. frame. Qed.

Lemma decoder_SampleRate_inv s a s' t :
  decoder_SampleRate s = (Ret a, s', t) ->
  decoder s <> None /\ s' = s /\ t = [].
Proof.
  unfold decoder_SampleRate, with_decoder, bind, get, ret.
  destruct (decoder s); intros H; inversion H; subst. repeat split. discriminate.
Qed.

Lemma decoder_Channels_inv s a s' t :
  decoder_Channels s = (Ret a, s', t) -> s' = s /\ t = [].
Proof.
  unfold decoder_Channels, with_decoder, bind, get, ret.
  destruct (decoder s); intros H; inversion H; subst. repeat split.
Qed.

Lemma set_format_decoder b r c :
  preserves decoder
    (when b (output_SetSampleRate r;; output_SetChannels c)).
Proof. frame. Qed.

(** [play] never replaces the playlist. *)
Lemma play_preserves_plist p smooth : preserves plist (play heap p smooth).
Proof. frame. Qed.

(** What a [play] that returns has done. *)
Lemma play_commit p smooth s l s' t :
  plist s = Some l ->
  play heap p smooth s = (Ret tt, s', t) ->
  pos s' = wrap_pos (Z.of_nat (length l)) p
  /\ 0 <= pos s' < Z.of_nat (length l)
  /\ state s' = statePlaying
  /\ bufAvailable s' = chanOpen
  /\ decoder s' <> None
  /\ count is_reset t = (if smooth then 0 else 1)%nat
  /\ last t = Some CheckerStart.
Proof.
  intros Hl H. unfold play in H.
  spine_prim H. rewrite Hl in H. spine_prim H.
  spine_prim H.
  split_run H Hq. pose proof (stop_checker_plist _ _ _ _ _ Hq) as Hf.
  apply (emits_only_run not_reset) in Hq; [ | solve [quiet] ].
  spine_prim H. rewrite Hf, Hl in H.
  split_run H Hget.
  apply Tracks_Get_inv in Hget as (l' & El & Hrange & _ & -> & ->).
  inversion El; subst l'; clear El. simpl in H.
  spine_prim H. spine_quiet not_reset H. spine_quiet not_reset H.
  spine_quiet not_reset H. spine_quiet not_reset H.
  spine_prim H. spine_quiet not_reset H.
  split_run H Hreset.
  match type of Hreset with
  | _ = (_, _, ?tr) =>
      assert (Hr : count is_reset tr = (if smooth then 0 else 1)%nat)
        by (destruct smooth; inversion Hreset; reflexivity)
  end.
  clear Hreset.
  spine_prim H. spine_prim H.
  split_run H Hsr. apply decoder_SampleRate_inv in Hsr as (Hd & -> & ->).
  split_run H Hch. apply decoder_Channels_inv in Hch as (-> & ->).
  split_run H Hset. pose proof (set_format_decoder _ _ _ _ _ _ _ Hset) as Hfd.
  apply (emits_only_run not_reset) in Hset; [ | solve [quiet] ].
  spine_prim H. spine_prim H.
  inversion H; subst; clear H. simpl.
  repeat split; try lia.
  - rewrite Hfd. exact Hd.
  - rewrite !count_app, Hr.
    repeat match goal with
           | Hq : forallb not_reset _ = true |- _ =>
               rewrite (count_quiet is_reset _ Hq); clear Hq
           end.
    simpl. destruct smooth; reflexivity.
  - rewrite !app_assoc. apply last_snoc.
Qed.

(** A [play] that returns had a playlist to play from. *)
Lemma play_returns_plist p smooth s s' t :
  play heap p smooth s = (Ret tt, s', t) -> exists l, plist s = Some l.
Proof.
  destruct (plist s) as [l|] eqn:El; [eauto|].
  unfold play. intros H. spine_prim H. rewrite El in H.
  apply bind_inv in H.
  destruct H as [(? & ? & _)|(? & ? & ? & ? & H1 & _)]; discriminate.
Qed.


(** [setPlaylist] installs the list it is given. *)
Lemma setPlaylist_installs new s a s' t :
  setPlaylist new s = (Ret a, s', t) -> plist s' = new /\ t = [].
Proof.
  unfold setPlaylist. intros H. spine_prim H.
  split_run H Hq.
  apply (emits_only_run (fun _ => false)) in Hq; [ | solve [quiet] ].
  match goal with
  | Hq : forallb _ ?tq = true |- _ => destruct tq; [|discriminate Hq]
  end.
  cbv [modify] in H. inversion H; subst. split; reflexivity.
Qed.

(** The three ways of asking for an explicit jump end in [play _ false]. *)
Lemma explicit_is_play msg s s' t :
  explicit msg = true ->
  handle heap msg s = (Ret false, s', t) ->
  exists p s1, play heap p false s1 = (Ret tt, s', t) /\
    match msg with
    | cmdPlay new q => plist s1 = new /\ p = q
    | cmdNext => s1 = s /\ p = pos s + 1
    | cmdPrev => s1 = s /\ p = pos s - 1
    | _ => False
    end.
Proof.
  destruct msg; try discriminate; intros _ H; unfold handle in H.
  - spine_prim H. split_run H Hp. cbv [ret] in H. inversion H; subst.
    rewrite app_nil_r. match goal with u : unit |- _ => destruct u end. eauto.
  - split_run H Hs. apply setPlaylist_installs in Hs as [Hs ->].
    split_run H Hp. cbv [ret] in H. inversion H; subst.
    rewrite app_nil_r. simpl.
    repeat match goal with u : unit |- _ => destruct u end. eauto.
  - spine_prim H. split_run H Hp. cbv [ret] in H. inversion H; subst.
    rewrite app_nil_r. match goal with u : unit |- _ => destruct u end. eauto.
Qed.

#[local] Hint Resolve play_smooth_no_reset : quiet_db.

(** The decode step never resets the output, however it ends. *)
Lemma tick_no_reset r : emits_only not_reset (tick heap r).
Proof. quiet. Qed.

(** ** Where [play] lands *)


(** ** When the output is reset *)

(** C4.  An explicit [Play], [Next] or [Prev] that goes through resets
    the output exactly once, before the commit that restarts the checker
    in state [Playing]; the decode step, which is where a natural advance
    happens, never resets it. *)
Theorem reset_exactly_on_explicit_jump :
  (forall msg s,
      explicit msg = true ->
      outcome (handle heap msg s) = Ret false ->
      count is_reset (trace (handle heap msg s)) = 1%nat /\
      last (trace (handle heap msg s)) = Some CheckerStart /\
      state (final (handle heap msg s)) = statePlaying) /\
  (forall r s, count is_reset (trace (tick heap r s)) = 0%nat).
Proof.
  split.
  - intros msg s Hmsg H.
    destruct (handle heap msg s) as [[r s'] t] eqn:E.
    unfold outcome, final, trace in *; cbn [fst snd] in *; subst r.
    apply explicit_is_play in E as (q & s1 & E & _); [|exact Hmsg].
    destruct (play_returns_plist _ _ _ _ _ E) as [l Hl].
    destruct (play_commit _ _ _ _ _ _ Hl E) as (_ & _ & Hst & _ & _ & Hr & Hlast).
    auto.
  - intros r s. apply count_quiet. apply (tick_no_reset r s).
Qed.

(** ** Contiguous parts of one file *)

(** The target index of a [play] that finds a track is not negative. *)
Lemma wrap_pos_found (l : Tracks) p nxt :
  l !! Z.to_nat (wrap_pos (Z.of_nat (length l)) p) = Some nxt ->
  (wrap_pos (Z.of_nat (length l)) p <? 0) = false.
Proof.
  intros H. apply Z.ltb_ge. unfold wrap_pos in *.
  destruct (p <? 0) eqn:E1; [|destruct (p >=? Z.of_nat (length l)) eqn:E2];
    try lia.
  destruct l; [discriminate|]. simpl length. lia.
Qed.

(** No seek when the engine is playing and moves to a part that starts,
    in the same file, where the current track ends. *)
Lemma contiguous_no_seek p smooth s l cur nxt c n :
  state s = statePlaying ->
  plist s = Some l ->
  0 <= pos s ->
  l !! Z.to_nat (pos s) = Some cur ->
  l !! Z.to_nat (wrap_pos (Z.of_nat (length l)) p) = Some nxt ->
  heap cur = Some c -> heap nxt = Some n ->
  Part n = true ->
  File (TPath c) = File (TPath n) ->
  End c = Start n ->
  count is_seek (trace (play heap p smooth s)) = 0%nat.
Proof.
  destruct s as [ds o pl ps st d ch fr]; simpl.
  intros -> -> Hps Hcur Hnxt Hc Hn HP HF HE.
  pose proof (wrap_pos_found _ _ _ Hnxt) as Hw.
  assert (Hps' : (ps <? 0) = false) by (apply Z.ltb_ge; lia).
  apply String.eqb_eq in HF. apply Z.eqb_eq in HE.
  unfold_engine.
  destruct ch; try reflexivity.
  rewrite Hw, Hnxt, Hps', Hcur, Hc, Hn, HF, HE, HP.
  repeat (case_stuck; try reflexivity).
Qed.

(** C2 (as amended).  While a track plays, a move to a part of the same
    file that starts where the playing track ends issues no seek, for a
    natural advance and for an explicit jump alike.  The output is not
    reset when the move is a natural advance; an explicit jump that goes
    through resets it exactly once. *)
Theorem contiguous_part_keeps_decoding p smooth s l cur nxt c n :
  state s = statePlaying ->
  plist s = Some l ->
  0 <= pos s ->
  l !! Z.to_nat (pos s) = Some cur ->
  l !! Z.to_nat (wrap_pos (Z.of_nat (length l)) p) = Some nxt ->
  heap cur = Some c -> heap nxt = Some n ->
  Part n = true ->
  File (TPath c) = File (TPath n) ->
  End c = Start n ->
  count is_seek (trace (play heap p smooth s)) = 0%nat /\
  (smooth = true -> count is_reset (trace (play heap p smooth s)) = 0%nat) /\
  (smooth = false -> outcome (play heap p smooth s) = Ret tt ->
   count is_reset (trace (play heap p smooth s)) = 1%nat).
Proof.
  intros Hst Hl Hps Hcur Hnxt Hc Hn HP HF HE. split; [|split].
  - eapply contiguous_no_seek; eauto.
  - intros ->. apply count_quiet. apply (play_smooth_no_reset p s).
  - intros -> H.
    destruct (play heap p false s) as [[r s'] t] eqn:E.
    unfold outcome, final, trace in *; cbn [fst snd] in *; subst r.
    apply (play_commit _ _ _ _ _ _ Hl E).
Qed.

(** ** Moving to another file *)

(** While a track plays, a move to a track of another file closes the
    decoder in use and, when a decoder is registered for the extension of
    the new file, makes a new decoder and opens it on that file; this
    for parts and whole files, contiguous or not, natural or explicit. *)
Lemma playing_other_file_reopens p smooth s l cur nxt c n d drv :
  state s = statePlaying ->
  bufAvailable s = chanOpen ->
  decoder s = Some d ->
  plist s = Some l ->
  0 <= pos s ->
  l !! Z.to_nat (pos s) = Some cur ->
  l !! Z.to_nat (wrap_pos (Z.of_nat (length l)) p) = Some nxt ->
  heap cur = Some c -> heap nxt = Some n ->
  File (TPath c) <> File (TPath n) ->
  decoders s !! Ext (TPath n) = Some drv ->
  exists rest,
    trace (play heap p smooth s) =
      [CheckerStop; DecoderClose (did d);
       DecoderNew (fresh s) (Ext (TPath n));
       DecoderOpen (fresh s) (File (TPath n))] ++ rest.
Proof.
  destruct s as [ds o pl ps st d0 ch fr]; simpl.
  intros -> -> -> -> Hps Hcur Hnxt Hc Hn HF Hdrv.
  pose proof (wrap_pos_found _ _ _ Hnxt) as Hw.
  assert (Hps' : (ps <? 0) = false) by (apply Z.ltb_ge; lia).
  apply String.eqb_neq in HF.
  unfold_engine.
  rewrite Hw, Hnxt, Hps', Hcur, Hc, Hn, HF, Hdrv.
  repeat case_stuck; eexists; reflexivity.
Qed.

(** ** A track nothing can decode *)

(** While a track plays, a move to a track of another file whose
    extension has no registered decoder closes the decoder in use twice,
    sets the state to [Stopped] and panics. *)
Lemma playing_unregistered_panics p smooth s l cur nxt c n d :
  state s = statePlaying ->
  bufAvailable s = chanOpen ->
  decoder s = Some d ->
  plist s = Some l ->
  0 <= pos s ->
  l !! Z.to_nat (pos s) = Some cur ->
  l !! Z.to_nat (wrap_pos (Z.of_nat (length l)) p) = Some nxt ->
  heap cur = Some c -> heap nxt = Some n ->
  File (TPath c) <> File (TPath n) ->
  decoders s !! Ext (TPath n) = None ->
  play heap p smooth s =
    (Abort PanicTODO,
     set_state stateStopped (set_bufAvailable chanClosed s),
     [CheckerStop; DecoderClose (did d); DecoderClose (did d)]).
Proof.
  destruct s as [ds o pl ps st d0 ch fr]; simpl.
  intros -> -> -> -> Hps Hcur Hnxt Hc Hn HF Hdrv.
  pose proof (wrap_pos_found _ _ _ Hnxt) as Hw.
  assert (Hps' : (ps <? 0) = false) by (apply Z.ltb_ge; lia).
  apply String.eqb_neq in HF.
  unfold_engine.
  rewrite Hw, Hnxt, Hps', Hcur, Hc, Hn, HF, Hdrv.
  reflexivity.
Qed.

(** ** Stop *)

Lemma stop_when_stopped s :
  state s = stateStopped -> stop s = (Ret tt, s, []).
Proof.
  destruct s as [ds o pl ps st d ch fr]; simpl. intros ->. reflexivity.
Qed.

Lemma stop_twice s : (stop;; stop) s = stop s.
Proof.
  destruct s as [ds o pl ps st d ch fr].
  destruct st, ch, d; reflexivity.
Qed.

(** C9.  [Stop] on a stopped engine calls nothing and changes nothing,
    as a call of [stop] and as a whole loop iteration; and two [stop]s
    in a row do what one does, from any state. *)
Theorem stop_is_idempotent :
  (forall s, state s = stateStopped -> stop s = (Ret tt, s, [])) /\
  (forall s r, state s = stateStopped ->
               iteration heap (Some cmdStop) r s = (Ret false, s, [])) /\
  (forall s, (stop;; stop) s = stop s) /\
  (forall s, outcome (stop s) = Ret tt ->
             state (final (stop s)) = stateStopped /\
             stop (final (stop s)) = (Ret tt, final (stop s), [])).
Proof.
  split; [|split; [|split]].
  - exact stop_when_stopped.
  - intros s r Hs. destruct s as [ds o pl ps st d ch fr]; simpl in Hs.
    subst st. reflexivity.
  - exact stop_twice.
  - intros s H.
    assert (Hs : state (final (stop s)) = stateStopped).
    { destruct s as [ds o pl ps st d ch fr].
      destruct st, ch, d; try reflexivity; discriminate H. }
    split; [exact Hs|]. apply stop_when_stopped. exact Hs.
Qed.

(** ** Replacing the playlist *)

(** [index_from] finds the first entry that is the pointer [cur]. *)
Lemma index_from_found cur (l : Tracks) : forall i j,
  index_from cur l i = Some j ->
  i <= j /\
  l !! Z.to_nat (j - i) = Some cur /\
  (forall k, (k < Z.to_nat (j - i))%nat -> l !! k <> Some cur).
Proof.
  induction l as [|q l IH]; intros i j H; simpl in H; [discriminate|].
  destruct (Nat.eqb q cur) eqn:E.
  - inversion H; subst j. apply Nat.eqb_eq in E. subst q.
    rewrite Z.sub_diag. simpl. repeat split; [lia|]. intros k Hk. lia.
  - apply IH in H as (Hle & Hat & Hfirst).
    apply Nat.eqb_neq in E.
    assert (Hj : Z.to_nat (j - i) = S (Z.to_nat (j - (i + 1)))) by lia.
    rewrite Hj. repeat split; [lia|exact Hat|].
    intros [|k] Hk; simpl.
    + intros Heq; inversion Heq; contradiction.
    + apply Hfirst. lia.
Qed.

Lemma index_from_absent cur (l : Tracks) : forall i,
  index_from cur l i = None -> forall k, l !! k <> Some cur.
Proof.
  induction l as [|q l IH]; intros i H k; simpl in H.
  - destruct k; discriminate.
  - destruct (Nat.eqb q cur) eqn:E; [discriminate|].
    apply Nat.eqb_neq in E. destruct k as [|k]; simpl.
    + intros Heq; inversion Heq; contradiction.
    + eapply IH; eauto.
Qed.

(** On an engine that is not stopped [setPlaylist] moves the position to
    the first index of the new list that holds the very track object
    being played, or to -1 when no entry of the new list is that object;
    tracks are compared by address, never by their field values. *)
Lemma setPlaylist_relocates new s l cur :
  state s <> stateStopped ->
  plist s = Some l ->
  0 <= pos s ->
  l !! Z.to_nat (pos s) = Some cur ->
  setPlaylist (Some new) s =
    (Ret tt,
     set_plist (Some new)
       (set_pos (default (-1) (index_from cur new 0)) s),
     []).
Proof.
  destruct s as [ds o pl ps st d ch fr]; simpl.
  intros Hst -> Hps Hcur.
  assert (Hps' : (ps <? 0) = false) by (apply Z.ltb_ge; lia).
  destruct st; [contradiction| |];
    unfold_engine; rewrite Hps', Hcur; cbv [default from_option id];
    destruct (index_from cur new 0); reflexivity.
Qed.

(** [SetPlaylist] while a track plays: the position follows the track
    object into the new list, and playback stops when the object is not
    in it. *)
Lemma playing_setPlaylist new s l cur d :
  state s = statePlaying ->
  bufAvailable s = chanOpen ->
  decoder s = Some d ->
  plist s = Some l ->
  0 <= pos s ->
  l !! Z.to_nat (pos s) = Some cur ->
  match index_from cur new 0 with
  | Some i =>
      handle heap (cmdPlist (Some new)) s =
        (Ret false, set_plist (Some new) (set_pos i s), []) /\
      new !! Z.to_nat i = Some cur /\
      (forall k, (k < Z.to_nat i)%nat -> new !! k <> Some cur)
  | None =>
      (forall k, new !! k <> Some cur) /\
      outcome (handle heap (cmdPlist (Some new)) s) = Ret false /\
      state (final (handle heap (cmdPlist (Some new)) s)) = stateStopped /\
      pos (final (handle heap (cmdPlist (Some new)) s)) = -1 /\
      plist (final (handle heap (cmdPlist (Some new)) s)) = None /\
      trace (handle heap (cmdPlist (Some new)) s) =
        [CheckerStop; OutputClose; DecoderClose (did d)]
  end.
Proof.
  intros Hst Hch Hd Hl Hps Hcur.
  assert (Hne : state s <> stateStopped) by (rewrite Hst; discriminate).
  pose proof (setPlaylist_relocates new s l cur Hne Hl Hps Hcur) as Hset.
  destruct (index_from cur new 0) as [i|] eqn:Ei.
  - apply index_from_found in Ei as (Hi & Hat & Hfirst).
    rewrite Z.sub_0_r in Hat, Hfirst. repeat split; auto.
    unfold handle, bind. rewrite Hset. cbn [default].
    assert (Hi' : (i =? -1) = false) by (apply Z.eqb_neq; lia).
    destruct s; simpl. rewrite Hi'. reflexivity.
  - split; [eapply index_from_absent; eauto|].
    unfold handle, bind. rewrite Hset. cbn [default].
    destruct s as [ds o pl ps st d0 ch fr]; simpl in *. subst.
    repeat split.
Qed.

(** On a paused engine the same command, with a list that does not hold
    the current track object, panics: [stop] sends on the channel that
    [Pause] closed. *)
Lemma paused_setPlaylist_absent new s l cur :
  state s = statePaused ->
  bufAvailable s = chanClosed ->
  plist s = Some l ->
  0 <= pos s ->
  l !! Z.to_nat (pos s) = Some cur ->
  index_from cur new 0 = None ->
  handle heap (cmdPlist (Some new)) s =
    (Abort PanicSendOnClosed, set_plist (Some new) (set_pos (-1) s), []).
Proof.
  intros Hst Hch Hl Hps Hcur Hnone.
  assert (Hne : state s <> stateStopped) by (rewrite Hst; discriminate).
  pose proof (setPlaylist_relocates new s l cur Hne Hl Hps Hcur) as Hset.
  rewrite Hnone in Hset.
  unfold handle, bind. rewrite Hset. cbn [default].
  destruct s as [ds o pl ps st d0 ch fr]; simpl in *. subst. reflexivity.
Qed.

(** ** What the loop keeps true of the engine *)


Lemma play_keeps_consistent p smooth : keeps consistent (play heap p smooth).
Proof.
  intros s [] s' t _ H.
  destruct (play_returns_plist _ _ _ _ _ H) as [l Hl].
  destruct (play_commit _ _ _ _ _ _ Hl H) as (_ & _ & Hst & Hch & Hd & _).
  unfold consistent. rewrite Hst. auto.
Qed.

Lemma stop_keeps_consistent : keeps consistent stop.
Proof.
  intros s [] s' t _ H. destruct s as [ds o pl ps st d ch fr].
  destruct st, ch, d; inversion H; exact I.
Qed.

Lemma setPlaylist_keeps_consistent l : keeps consistent (setPlaylist l).
Proof.
  apply (preserves_keeps
           (fun s => (state s, bufAvailable s, decoder s))).
  - intros s s' E. inversion E as [[E1 E2 E3]]. unfold consistent.
    rewrite E1, E2, E3. auto.
  - frame.
Qed.

Lemma pause_keeps_consistent : keeps consistent (handle heap cmdPause).
Proof.
  intros s a s' t Hs H. destruct s as [ds o pl ps st d ch fr].
  unfold consistent in Hs. simpl in Hs.
  destruct st; [inversion H; exact I| |];
    destruct Hs as [-> Hd]; inversion H; split; auto.
Qed.

#[local] Hint Resolve play_keeps_consistent stop_keeps_consistent
  setPlaylist_keeps_consistent : keep_db.

Lemma handle_keeps_consistent msg : keeps consistent (handle heap msg).
Proof. destruct msg; [| |apply pause_keeps_consistent| | | |]; keep. Qed.

Lemma tick_keeps_consistent r : keeps consistent (tick heap r).
Proof. keep. Qed.

#[local] Hint Resolve handle_keeps_consistent tick_keeps_consistent : keep_db.

Lemma iteration_keeps_consistent msg r :
  keeps consistent (iteration heap msg r).
Proof. keep. Qed.

(** However many messages and wake-ups the loop has gone through, the
    engine is consistent. *)
Lemma loop_keeps_consistent arrivals : keeps consistent (loop heap arrivals).
Proof.
  induction arrivals as [|[msg r] rest IH]; simpl.
  - apply keeps_ret.
  - apply keeps_bind; [apply iteration_keeps_consistent|].
    intros [|]; [apply keeps_ret|exact IH].
Qed.

Lemma idle_is_consistent ds o : consistent (newPlayingThread ds o).
Proof. exact I. Qed.

(** On a consistent engine that is paused, [stop] panics, and so does
    every [play]: both send on the channel that [Pause] closed. *)
Lemma paused_stop_panics s :
  consistent s -> state s = statePaused ->
  stop s = (Abort PanicSendOnClosed, s, []).
Proof.
  destruct s as [ds o pl ps st d ch fr]. unfold consistent. simpl.
  intros Hs ->. destruct Hs as [-> _]. reflexivity.
Qed.

Lemma paused_play_panics p smooth s l :
  consistent s -> state s = statePaused -> plist s = Some l ->
  play heap p smooth s = (Abort PanicSendOnClosed, s, []).
Proof.
  destruct s as [ds o pl ps st d ch fr]. unfold consistent. simpl.
  intros Hs -> ->. destruct Hs as [-> _]. reflexivity.
Qed.

End WithHeap.

(** ** Concrete runs *)



(** C4, at a concrete run: [Next] while the second track plays, and a
    decode step at the end of that track. *)
Lemma reset_exactly_on_explicit_jump_witness :
  count is_reset (trace (handle Album.heap cmdNext (Album.playing 1))) = 1%nat
  /\ count is_reset
       (trace (tick Album.heap (Album.more 0) (Album.playing 1))) = 0%nat.
Proof.
  split.
  - apply (proj1 (reset_exactly_on_explicit_jump Album.heap) cmdNext
             (Album.playing 1));
      [ reflexivity | vm_compute; reflexivity ].
  - apply (proj2 (reset_exactly_on_explicit_jump Album.heap)).
Defined.

(** C2, at a concrete run: the second part of a.mp3 is playing and its
    end is reached. *)
Lemma contiguous_part_keeps_decoding_witness :
  count is_seek (trace (play Album.heap 2 true (Album.playing 1))) = 0%nat.
Proof.
  apply (contiguous_part_keeps_decoding Album.heap 2 true (Album.playing 1)
           Album.five 2%nat 3%nat Album.side_a2 Album.side_a3);
    try reflexivity; vm_compute; discriminate.
Defined.

(** C2 as stated fails: [Next] from the second part of a.mp3 to the
    third, which starts where the second ends, does not seek but does
    reset the output. *)
Lemma contiguous_explicit_jump_resets :
  let s := Album.playing 1 in
  let r := handle Album.heap cmdNext s in
  state s = statePlaying /\ pos s = 1 /\
  outcome r = Ret false /\ pos (final r) = 2 /\
  count is_seek (trace r) = 0%nat /\
  count is_reset (trace r) = 1%nat.
Proof. vm_compute. repeat split. Qed.

(** C9, at a concrete state: the idle engine. *)
Lemma stop_is_idempotent_witness :
  stop Album.idle = (Ret tt, Album.idle, []).
Proof.
  apply (proj1 (stop_is_idempotent Album.heap) Album.idle). reflexivity.
Defined.

(** C3 fails on the code: [Next] on a paused engine, towards a track of
    another file, panics on the closed channel before any decoder is
    touched; the decoder in use is not closed and none is opened. *)
Theorem paused_jump_never_reaches_decoder :
  let s := Album.paused 2 in
  let r := handle Album.heap cmdNext s in
  state s = statePaused /\ pos s = 2 /\
  bufAvailable s = chanClosed /\
  option_map did (decoder s) = Some 0%nat /\
  outcome r = Abort PanicSendOnClosed /\
  trace r = [] /\
  count is_decoder_close (trace r) = 0%nat /\
  count is_decoder_open (trace r) = 0%nat /\
  state (final r) = statePaused.
Proof. vm_compute. repeat split. Qed.

(** C6 fails on the code: moving to a track whose extension has no
    decoder ends in [panic("TODO:")], for [Next] and for a natural
    advance alike, and so does moving to a track whose file cannot be
    opened; the loop does not go on to another track. *)
Theorem undecodable_track_panics :
  let s := Album.before_unknown in
  let jump := handle Album.heap cmdNext s in
  let advance := tick Album.heap (Album.more 0) s in
  let unopened := handle Album.heap cmdNext Album.before_broken in
  state s = statePlaying /\ pos s = 4 /\
  outcome jump = Abort PanicTODO /\
  state (final jump) = stateStopped /\
  trace jump = [CheckerStop; DecoderClose 0; DecoderClose 0] /\
  outcome advance = Abort PanicTODO /\
  state (final advance) = stateStopped /\
  outcome (loop Album.heap
             [(Some cmdNext, Album.more 512); (Some cmdNext, Album.more 512)]
             s) = Abort PanicTODO /\
  outcome unopened = Abort PanicTODO /\
  state (final unopened) = stateStopped /\
  trace unopened =
    [CheckerStop; DecoderClose 0; DecoderNew 1 ".mp3";
     DecoderOpen 1 "broken.mp3"; DecoderClose 0].
Proof. vm_compute. repeat split. Qed.

(** C5 fails on the code: the second track is playing and paused; the
    new list holds at its second place another object with the same
    field values, not the object itself.  The position is set to -1 and
    the loop then panics in [stop]; the engine is not [Stopped].  The
    same list, sent while the track plays, stops the engine, and a list
    that holds the object moves the position to it. *)
Theorem paused_setPlaylist_without_current_panics :
  let other := [1; 5; 3]%nat in
  let r := handle Album.heap (cmdPlist (Some other)) (Album.paused 1) in
  let r' := handle Album.heap (cmdPlist (Some other)) (Album.playing 1) in
  let r'' := handle Album.heap (cmdPlist (Some [5; 3; 2; 2]%nat))
               (Album.paused 1) in
  state (Album.paused 1) = statePaused /\
  Album.heap 5%nat = Album.heap 2%nat /\
  outcome r = Abort PanicSendOnClosed /\
  state (final r) = statePaused /\
  pos (final r) = -1 /\
  outcome r' = Ret false /\ state (final r') = stateStopped /\
  outcome r'' = Ret false /\ pos (final r'') = 2.
Proof. vm_compute. repeat split. Qed.

End EngineSpec.

(* ===================================================================== *)
(** * Properties of the playlist registry                                 *)
(* ===================================================================== *)

Module RegistrySpec.
Import Registry.

Section WithConstructor.
Variable newPlaylist : string -> Playlist.

(** [cmdPlaylistsAdd] returns an error for a name in use and leaves the
    registry as it is. *)
Lemma add_existing_fails ps name p :
  getPlaylistByName ps name = Some p ->
  cmdPlaylistsAdd newPlaylist name ps = (Some (ErrExists name), ps).
Proof. intros H. unfold cmdPlaylistsAdd. rewrite H. reflexivity. Qed.

(** The turn of [playingProcess] for that command drops the error. *)
Lemma add_error_is_dropped ps name :
  err (fst (playingProcess newPlaylist CMD_PLAYLISTS_ADD name ps)) = None.
Proof.
  unfold playingProcess. destruct (cmdPlaylistsAdd newPlaylist name ps).
  reflexivity.
Qed.

(** [cmdPlaylistsDelete] fails only with the system playlist error, and
    then leaves the registry as it is. *)
Lemma delete_error_leaves name ps e :
  fst (cmdPlaylistsDelete name ps) = Some e ->
  cmdPlaylistsDelete name ps = (Some ErrSystem, ps).
Proof.
  induction ps as [|p rest IH]; simpl; [discriminate|].
  destruct (system p); [reflexivity|].
  destruct (String.eqb (Name p) name); [discriminate|].
  destruct (cmdPlaylistsDelete name rest) as [e' rest'] eqn:E.
  simpl in *. intros H. specialize (IH H). inversion IH; subst. reflexivity.
Qed.

(** The walk stops at the first system playlist: when no playlist before
    it has the name, the deletion fails whatever the name is. *)
Lemma delete_behind_system_fails name before sys after :
  Forall (fun p => system p = false /\ Name p <> name) before ->
  system sys = true ->
  cmdPlaylistsDelete name (before ++ sys :: after) =
    (Some ErrSystem, before ++ sys :: after).
Proof.
  intros Hb Hs. induction Hb as [|p rest [Hp Hn] _ IH]; simpl.
  - rewrite Hs. reflexivity.
  - rewrite Hp. apply String.eqb_neq in Hn. rewrite Hn, IH. reflexivity.
Qed.

(** Before any system playlist the first playlist of the name is removed
    and nothing else. *)
Lemma delete_before_system_removes name before p after :
  Forall (fun q => system q = false /\ Name q <> name) before ->
  system p = false -> Name p = name ->
  cmdPlaylistsDelete name (before ++ p :: after) = (None, before ++ after).
Proof.
  intros Hb Hs Hn. induction Hb as [|q rest [Hq Hqn] _ IH]; simpl.
  - rewrite Hs. apply String.eqb_eq in Hn. rewrite Hn. reflexivity.
  - rewrite Hq. apply String.eqb_neq in Hqn. rewrite Hqn, IH. reflexivity.
Qed.

End WithConstructor.

(** C7 fails on the code.  With the system playlist first in the
    registry, deleting the user's playlist "rock" fails and removes
    nothing, and so does deleting a name no playlist has; and adding
    "rock" again makes [cmdPlaylistsAdd] return an error that the turn
    of [playingProcess] does not pass on to the caller. *)
Theorem system_playlist_blocks_every_delete :
  cmdPlaylistsDelete "rock" shelf = (Some ErrSystem, shelf) /\
  cmdPlaylistsDelete "jazz" shelf = (Some ErrSystem, shelf) /\
  playingProcess plain CMD_PLAYLISTS_DELETE "rock" shelf =
    ({| err := Some ErrSystem; arguments := None |}, shelf) /\
  cmdPlaylistsAdd plain "rock" shelf = (Some (ErrExists "rock"), shelf) /\
  playingProcess plain CMD_PLAYLISTS_ADD "rock" shelf =
    ({| err := None; arguments := None |}, shelf).
Proof. repeat split. Qed.

End RegistrySpec.

(* ===================================================================== *)
(** * Properties of the session protocol                                  *)
(* ===================================================================== *)

Module SessionSpec.
Import Session.
Local Open Scope string_scope.

Lemma append_cons x (a b : string) : String x a ++ b = String x (a ++ b).
Proof. reflexivity. Qed.

Lemma append_assoc (a b c : string) : (a ++ b) ++ c = a ++ (b ++ c).
Proof.
  induction a as [|x a IH]; [reflexivity|].
  rewrite !append_cons, IH. reflexivity.
Qed.

Lemma append_nil_r (a : string) : a ++ EmptyString = a.
Proof.
  induction a as [|x a IH]; [reflexivity|].
  rewrite append_cons, IH. reflexivity.
Qed.

Lemma unlines_app (xs ys : list string) :
  unlines (xs ++ ys) = unlines xs ++ unlines ys.
Proof.
  induction xs as [|x xs IH]; simpl; [reflexivity|].
  rewrite IH, !append_assoc. reflexivity.
Qed.

Lemma handler_eta cl : {| out := out cl |} = cl.
Proof. destruct cl. reflexivity. Qed.

Section WithCollaborators.
Variable player_Add : string -> string -> option string.
Variable player_AddPlaylist : string -> option string.
Variable player_Playlists : list (string * Z).
Variable path_List : string -> string + list entry.
Variable Quote : string -> string.
Variable Itoa : Z -> string.

(** ** What each handler writes *)

Lemma write_entry_text e cl :
  write_entry Quote Itoa e cl =
    if supported e
    then Some {| out := out cl ++ entry_line Quote Itoa e ++ nl |}
    else None.
Proof.
  destruct e as [tag|d path|]; simpl; [| |reflexivity].
  - unfold track_line, writeLn, write. simpl.
    rewrite ?append_assoc. reflexivity.
  - unfold directory_line, writeLn, write. simpl.
    rewrite ?append_assoc. reflexivity.
Qed.

Lemma write_entries_text es : forall cl,
  write_entries Quote Itoa es cl =
    if forallb supported es
    then Some {| out := out cl ++ unlines (map (entry_line Quote Itoa) es) |}
    else None.
Proof.
  induction es as [|e es IH]; intros cl; simpl.
  - rewrite append_nil_r, handler_eta. reflexivity.
  - rewrite write_entry_text. destruct (supported e); simpl; [|reflexivity].
    rewrite IH. destruct (forallb supported es); [|reflexivity].
    simpl. rewrite ?append_assoc. reflexivity.
Qed.

Lemma write_playlists_text ps : forall cl,
  fold_left (fun cl p => write_playlist Quote Itoa p cl) ps cl
  = {| out := out cl ++ unlines (map (playlist_line Quote Itoa) ps) |}.
Proof.
  induction ps as [|p ps IH]; intros cl; simpl.
  - rewrite append_nil_r, handler_eta. reflexivity.
  - rewrite IH. unfold playlist_line, write_playlist, writeLn, write.
    simpl. rewrite ?append_assoc. reflexivity.
Qed.

(** The answer of a handler that reports an error, and of one that went
    well, once [HandleCommand] has ended the message. *)
Lemma eom_WriteError e cl :
  eom (WriteError e cl) = {| out := out cl ++ err_response e |}.
Proof.
  unfold err_response, WriteError, eom, error, writeLn, write. simpl.
  rewrite ?append_assoc. reflexivity.
Qed.

Lemma eom_ok_lines ls cl :
  eom {| out := out (ok cl) ++ unlines ls |}
  = {| out := out cl ++ ok_response ls |}.
Proof.
  unfold ok_response, eom, ok, writeLn, write. simpl.
  rewrite ?append_assoc. reflexivity.
Qed.

Lemma eom_ok cl : eom (ok cl) = {| out := out cl ++ ok_response [] |}.
Proof.
  rewrite <- (eom_ok_lines [] cl). cbn [unlines].
  rewrite append_nil_r, handler_eta. reflexivity.
Qed.

(** The text a command adds to the output and its [quit] flag; [None]
    where the handler panics. *)
Lemma HandleCommand_text cmd cl :
  HandleCommand player_Add player_AddPlaylist player_Playlists path_List
    Quote Itoa cmd cl =
    match name cmd with
    | cmdAdd =>
        match arg_string cmd 0 with
        | Some playlist =>
            match arg_string cmd 1 with
            | Some path =>
                Some (false,
                      {| out := out cl ++
                                match player_Add playlist path with
                                | Some e => err_response e
                                | None => ok_response []
                                end |})
            | None => None
            end
        | None => None
        end
    | cmdAddPlaylist =>
        match arg_string cmd 0 with
        | Some playlist =>
            Some (false,
                  {| out := out cl ++
                            match player_AddPlaylist playlist with
                            | Some e => err_response e
                            | None => ok_response []
                            end |})
        | None => None
        end
    | cmdLs =>
        match arg_string cmd 0 with
        | Some dir =>
            match path_List dir with
            | inl e => Some (false, {| out := out cl ++ err_response e |})
            | inr es =>
                if forallb supported es
                then Some (false,
                           {| out := out cl ++
                                     ok_response
                                       (map (entry_line Quote Itoa) es) |})
                else None
            end
        | None => None
        end
    | cmdPing => Some (false, {| out := out cl ++ ok_response [] |})
    | cmdPlaylists =>
        Some (false,
              {| out := out cl ++
                        ok_response
                          (map (playlist_line Quote Itoa) player_Playlists) |})
    | cmdQuit => Some (true, {| out := out cl ++ ok_response ["Bye."] |})
    | cmdUnsupported => None
    end.
Proof.
  unfold HandleCommand. destruct (name cmd).
  - destruct (arg_string cmd 0) as [playlist|]; [|reflexivity].
    destruct (arg_string cmd 1) as [path|]; [|reflexivity].
    unfold handle_cmdAdd. destruct (player_Add playlist path) as [e|].
    + rewrite eom_WriteError. reflexivity.
    + rewrite eom_ok. reflexivity.
  - destruct (arg_string cmd 0) as [playlist|]; [|reflexivity].
    unfold handle_cmdAddPlaylist.
    destruct (player_AddPlaylist playlist) as [e|].
    + rewrite eom_WriteError. reflexivity.
    + rewrite eom_ok. reflexivity.
  - destruct (arg_string cmd 0) as [dir|]; [|reflexivity].
    unfold handle_cmdLs. destruct (path_List dir) as [e|es].
    + rewrite eom_WriteError. reflexivity.
    + rewrite write_entries_text. destruct (forallb supported es);
        [|reflexivity].
      rewrite eom_ok_lines. reflexivity.
  - unfold handle_cmdPing. rewrite eom_ok. reflexivity.
  - unfold handle_cmdPlaylists. rewrite write_playlists_text, eom_ok_lines.
    reflexivity.
  - unfold handle_cmdQuit.
    rewrite <- (eom_ok_lines ["Bye."] cl). unfold writeLn, write. simpl.
    rewrite ?append_assoc. reflexivity.
  - reflexivity.
Qed.


End WithCollaborators.



End SessionSpec.

(* ===================================================================== *)
(** * Properties of the cue-sheet parser                                  *)
(* ===================================================================== *)

Module CueSpec.
Import Cue.
Local Open Scope cue_scope.

Section WithHelpers.
Variable TrimSpace : string -> string.
Variable parseCommand : string -> error + (string * list string).
Variable parseTime : string -> error + (Z * Z * Z).
Variable Atoi : string -> error + Z.
Variable ToTitle : string -> string.
Variable stringTruncateMaybe : Sheet -> string -> Z -> string.

Abbreviation parsersMap := (parsersMap parseTime Atoi ToTitle stringTruncateMaybe).
Abbreviation descriptors := (descriptors parseTime Atoi ToTitle stringTruncateMaybe).
Abbreviation parseIndex := (parseIndex parseTime Atoi).
Abbreviation parse_lines :=
  (parse_lines TrimSpace parseCommand parseTime Atoi ToTitle
     stringTruncateMaybe).
Abbreviation Parse :=
  (Parse TrimSpace parseCommand parseTime Atoi ToTitle stringTruncateMaybe).

(** ** The table *)

Lemma parsersMap_descriptors cmd d :
  parsersMap !! cmd = Some d -> (cmd, d) ∈ descriptors.
Proof. apply elem_of_list_to_map_2. Qed.

Lemma parsersMap_INDEX : parsersMap !! "INDEX"%string = Some (2, parseIndex).
Proof. reflexivity. Qed.

(** Goes through the thirteen entries of the table. *)
Ltac each_descriptor H :=
  unfold Cue.descriptors in H;
  repeat (apply elem_of_cons in H as [H|H];
          [inversion H; subst; clear H|]);
  [..|apply elem_of_nil in H; contradiction].

(** ** No index outside the parameters *)

Lemma parse_flags_no_panic params : parse_flags params <> Panic.
Proof.
  induction params as [|p rest IH]; simpl; [discriminate|].
  unfold flagParser.
  repeat (case_match; simpl; try discriminate);
    destruct (parse_flags rest); simpl; congruence.
Qed.

(** With as many parameters as the table asks for, no parser reads
    outside [params]. *)
Lemma parser_no_panic cmd n parser params sheet :
  (cmd, (n, parser)) ∈ descriptors ->
  n = -1 \/ n = Z.of_nat (length params) ->
  parser params sheet <> Panic.
Proof.
  intros Hin Hn. each_descriptor Hin;
    (destruct Hn as [Hn|Hn]; [try discriminate Hn|]).
  all: try (destruct params as [|p0 [|p1 [|p2 ps]]];
            cbn [length] in Hn; try lia).
  all: cbv [parseCatalog parseCdTextFile parseFile parseFileType parseFlags
             Cue.parseIndex parseIsrc parsePerformer parsePostgap parsePregap
             parseRem parseSongWriter parseTitle parseTrack parseDataType
             param bind lift lookup list_lookup].
  all: repeat (case_match; try discriminate; try congruence).
  all: try discriminate.
  all: match goal with
       | H : parse_flags ?p = Panic |- _ =>
           exfalso; exact (parse_flags_no_panic p H)
       end.
Qed.

(** The loop over the lines never panics. *)
Lemma parse_lines_no_panic input : forall n sheet,
  parse_lines input n sheet <> Panic.
Proof.
  induction input as [|[buf|e] rest IH]; intros n sheet; simpl;
    try discriminate.
  destruct (String.length (TrimSpace buf) =? 0)%nat; [apply IH|].
  destruct (parseCommand (TrimSpace buf)) as [e|[cmd params]];
    [discriminate|].
  destruct (parsersMap !! cmd) as [[k parser]|] eqn:Hk; [|discriminate].
  destruct (negb (k =? -1) && negb (k =? Z.of_nat (length params))) eqn:Hc;
    [discriminate|].
  apply parsersMap_descriptors in Hk.
  pose proof (parser_no_panic cmd k parser params sheet Hk) as Hp.
  destruct (parser params sheet); [apply IH|discriminate|].
  exfalso. apply Hp; [|reflexivity].
  apply andb_false_iff in Hc as [Hc|Hc]; apply negb_false_iff in Hc;
    apply Z.eqb_eq in Hc; auto.
Qed.

(** The lines are read one after the other. *)
Lemma parse_lines_app before after : forall n sheet,
  parse_lines (before ++ after) n sheet =
  (r <- parse_lines before n sheet;; parse_lines after (fst r) (snd r)).
Proof.
  induction before as [|[buf|e] rest IH]; intros n sheet; simpl;
    try reflexivity.
  destruct (String.length (TrimSpace buf) =? 0)%nat; [apply IH|].
  destruct (parseCommand (TrimSpace buf)) as [e|[cmd params]];
    [reflexivity|].
  destruct (parsersMap !! cmd) as [[k parser]|]; [|reflexivity].
  destruct (negb (k =? -1) && negb (k =? Z.of_nat (length params)));
    [reflexivity|].
  destruct (parser params sheet); [apply IH|reflexivity|reflexivity].
Qed.

(** ** Before the first TRACK *)

Lemma no_tracks_no_current sheet :
  no_tracks sheet -> getCurrentTrack sheet = None.
Proof.
  unfold no_tracks, getCurrentTrack, getCurrentFile. intros H.
  destruct (last (Files sheet)) as [f|] eqn:E; [|reflexivity].
  apply last_Some in E as [l' E]. rewrite E in H.
  apply Forall_app in H as [_ H]. apply Forall_inv in H.
  simpl in H. rewrite H. reflexivity.
Qed.

(** Only TRACK gives a file its first track. *)
Lemma parser_keeps_no_tracks cmd n parser params sheet sheet' :
  (cmd, (n, parser)) ∈ descriptors ->
  cmd <> "TRACK"%string ->
  no_tracks sheet ->
  parser params sheet = Ok sheet' ->
  no_tracks sheet'.
Proof.
  intros Hin Hcmd Hs H. pose proof (no_tracks_no_current sheet Hs) as Hcur.
  each_descriptor Hin; try contradiction.
  all: cbv [parseCatalog parseCdTextFile parseFile parseFlags
             Cue.parseIndex parseIsrc parsePerformer parsePostgap parsePregap
             parseRem parseSongWriter parseTitle bind lift] in H.
  all: try rewrite Hcur in H.
  all: repeat (case_match; try discriminate).
  all: inversion H; subst; clear H; try exact Hs.
  unfold no_tracks. simpl. apply Forall_app. split; [exact Hs|].
  apply Forall_singleton. reflexivity.
Qed.

Lemma parse_lines_keeps_no_tracks input : forall n sheet n' sheet',
  Forall (fun r => ~ is_command TrimSpace parseCommand "TRACK" r) input ->
  no_tracks sheet ->
  parse_lines input n sheet = Ok (n', sheet') ->
  no_tracks sheet'.
Proof.
  induction input as [|[buf|e] rest IH]; intros n sheet n' sheet' Hin Hs H;
    simpl in H.
  - inversion H; subst. exact Hs.
  - apply Forall_cons in Hin as [Hbuf Hrest].
    destruct (String.length (TrimSpace buf) =? 0)%nat; [eapply IH; eauto|].
    destruct (parseCommand (TrimSpace buf)) as [e|[cmd params]] eqn:Ec;
      [discriminate|].
    destruct (parsersMap !! cmd) as [[k parser]|] eqn:Hk; [|discriminate].
    destruct (negb (k =? -1) && negb (k =? Z.of_nat (length params)));
      [discriminate|].
    destruct (parser params sheet) as [sheet1| |] eqn:Ep; try discriminate.
    apply parsersMap_descriptors in Hk.
    eapply IH; [exact Hrest| |exact H].
    eapply parser_keeps_no_tracks; [exact Hk| |exact Hs|exact Ep].
    intros ->. apply Hbuf. simpl. eauto.
  - discriminate.
Qed.

(** ** INDEX out of order *)

(** [parseIndex] returns an error for a number that does not fit the
    sheet, and for a number or a time that cannot be read. *)
Lemma parseIndex_out_of_order p0 p1 sheet :
  (forall number, Atoi p0 = inr number -> index_out_of_order sheet number) ->
  exists e, parseIndex [p0; p1] sheet = Error e.
Proof.
  intros H. unfold Cue.parseIndex, param, bind, lift. simpl.
  destruct (parseTime p1) as [e|[[m s] f]]; [eauto|].
  destruct (Atoi p0) as [e|number]; [eauto|].
  specialize (H number eq_refl).
  destruct ((number <? 0) || (number >? 99)) eqn:Er; [eauto|].
  apply orb_false_iff in Er as [Hlo Hhi].
  apply Z.ltb_ge in Hlo. rewrite Z.gtb_ltb in Hhi. apply Z.ltb_ge in Hhi.
  destruct H as [H|[H|H]]; try lia.
  destruct (getCurrentTrack sheet) as [track|]; [|eauto].
  destruct (last (Indexes track)) as [prev|].
  - destruct (IndexNumber prev + 1 =? number) eqn:E; [|eauto].
    apply Z.eqb_eq in E. lia.
  - destruct (number >=? 2) eqn:E; [eauto|].
    rewrite Z.geb_leb in E. apply Z.leb_gt in E. lia.
Qed.

(** The step of the loop at an INDEX line. *)
Lemma parse_lines_at_INDEX buf rest n sheet params :
  String.length (TrimSpace buf) <> 0%nat ->
  parseCommand (TrimSpace buf) = inr ("INDEX"%string, params) ->
  parse_lines (Line buf :: rest) n sheet =
    if negb (2 =? Z.of_nat (length params))
    then Error (ErrParamsCount n "INDEX" 2 (Z.of_nat (length params)))
    else match parseIndex params sheet with
         | Ok sheet' => parse_lines rest (n + 1) sheet'
         | Error e => Error (ErrLine n e)
         | Panic => Panic
         end.
Proof.
  intros Hlen Hcmd. apply Nat.eqb_neq in Hlen.
  cbn [Cue.parse_lines]. rewrite Hlen, Hcmd. reflexivity.
Qed.

(** C10.  [Parse] returns an error, and no sheet, when an INDEX command
    comes before any TRACK command, and when the number of an INDEX does
    not fit the sheet read so far: outside 0..99, 2 or more for the
    first index of a track, or not the number of the previous index of
    the track plus one. *)
Theorem Parse_rejects_INDEX_out_of_order before buf after flags params :
  String.length (TrimSpace buf) <> 0%nat ->
  parseCommand (TrimSpace buf) = inr ("INDEX"%string, params) ->
  (Forall (fun r => ~ is_command TrimSpace parseCommand "TRACK" r) before \/
   forall n sheet p0 number,
     parse_lines before 1 (newSheet flags) = Ok (n, sheet) ->
     params !! 0%nat = Some p0 ->
     Atoi p0 = inr number ->
     index_out_of_order sheet number) ->
  exists e, Parse (before ++ Line buf :: after) flags = Error e.
Proof.
  intros Hlen Hcmd Hbad. unfold Cue.Parse. rewrite parse_lines_app.
  pose proof (parse_lines_no_panic before 1 (newSheet flags)) as Hnp.
  destruct (parse_lines before 1 (newSheet flags)) as [[n sheet]|e|] eqn:Eb;
    [|simpl; eauto|contradiction].
  assert (Hfit : forall p0 number,
             params !! 0%nat = Some p0 -> Atoi p0 = inr number ->
             index_out_of_order sheet number).
  { destruct Hbad as [Hno|Hbad]; [|intros; eapply Hbad; eauto].
    intros p0 number _ _. right. right.
    rewrite (no_tracks_no_current sheet); [exact I|].
    eapply parse_lines_keeps_no_tracks; [exact Hno| |exact Eb].
    unfold no_tracks. simpl. constructor. }
  cbn [bind fst snd]. rewrite (parse_lines_at_INDEX _ _ _ _ _ Hlen Hcmd).
  destruct (negb (2 =? Z.of_nat (length params))) eqn:Ec; [eauto|].
  apply negb_false_iff in Ec. apply Z.eqb_eq in Ec.
  destruct params as [|p0 [|p1 [|p2 ps]]]; cbn [length] in Ec; try lia.
  destruct (parseIndex_out_of_order p0 p1 sheet) as [e He].
  { intros number. apply Hfit. reflexivity. }
  rewrite He. eauto.
Qed.

End WithHelpers.

(** The plain parser accepts a well-formed sheet. *)
Example well_formed_is_accepted :
  exists sheet, Plain.Parse Plain.well_formed 0 = Ok sheet /\
    map (fun t => map IndexNumber (Indexes t))
        (concat (map Tracks (Files sheet))) = [[0; 1]; [1]].
Proof. eexists. split; vm_compute; reflexivity. Qed.

(** The errors of the two ill-formed sheets, with the line they are
    found at. *)
Example index_before_track_is_rejected :
  Plain.Parse Plain.index_first 0 = Error (ErrLine 2 ErrTrackExpected).
Proof. vm_compute. reflexivity. Qed.

Example index_jump_is_rejected :
  Plain.Parse Plain.index_jump 0 = Error (ErrLine 4 (ErrIndexExpected 2)).
Proof. vm_compute. reflexivity. Qed.

(** C10, at a concrete sheet: the indexes of the first track jump from
    01 to 03. *)
Lemma Parse_rejects_INDEX_out_of_order_witness :
  exists e, Plain.Parse Plain.index_jump 0 = Error e.
Proof.
  apply (Parse_rejects_INDEX_out_of_order Plain.same Plain.parseCommand
           Plain.parseTime Plain.Atoi Plain.same Plain.keep
           [Line "FILE a.wav WAVE"; Line "TRACK 01 AUDIO";
            Line "INDEX 01 00:00:00"]
           "INDEX 03 00:02:00" [Line "TRACK 02 AUDIO"] 0
           ["03"; "00:02:00"]%string).
  - vm_compute. discriminate.
  - reflexivity.
  - right. intros n sheet p0 number Hb Hp Ha.
    vm_compute in Hb. inversion Hb; subst; clear Hb.
    inversion Hp; subst; clear Hp.
    vm_compute in Ha. inversion Ha; subst; clear Ha.
    right. right. vm_compute. discriminate.
Defined.

End CueSpec.

(* ===================================================================== *)
(** * Further properties of the playback engine                           *)
(* ===================================================================== *)

Module EngineMore.
Import Engine EngineSpec.
Local Open Scope engine_scope.

Section WithHeap.
Variable heap : ptr -> option Track.

(** ** The position stays inside the playlist *)

(** An explicit jump answers [quit = false]. *)
Lemma explicit_not_quit msg s a s' t :
  explicit msg = true -> handle heap msg s = (Ret a, s', t) -> a = false.
Proof.
  destruct msg; try discriminate; intros _ H; unfold handle in H;
    repeat (apply bind_inv in H;
            destruct H as [(? & ? & _)|(? & ? & ? & ? & _ & H & _)];
            [discriminate|]);
    inversion H; reflexivity.
Qed.

Lemma play_returns_positioned p smooth s a s' t :
  play heap p smooth s = (Ret a, s', t) -> positioned s'.
Proof.
  destruct a. intros H _.
  destruct (play_returns_plist heap _ _ _ _ _ H) as [l Hl].
  destruct (play_commit heap _ _ _ _ _ _ Hl H) as (_ & Hin & _).
  exists l. split; [|exact Hin].
  rewrite (play_preserves_plist heap _ _ _ _ _ _ H). exact Hl.
Qed.

Lemma play_keeps_positioned p smooth : keeps positioned (play heap p smooth).
Proof. intros s a s' t _ H. eapply play_returns_positioned; eauto. Qed.

Lemma explicit_keeps_positioned msg :
  explicit msg = true -> keeps positioned (handle heap msg).
Proof.
  intros Hmsg s a s' t _ H.
  pose proof (explicit_not_quit _ _ _ _ _ Hmsg H) as ->.
  apply explicit_is_play in H as (q & s1 & H & _); [|exact Hmsg].
  eapply play_returns_positioned; eauto.
Qed.

Lemma stop_returns_stopped s a s' t :
  stop s = (Ret a, s', t) -> state s' = stateStopped.
Proof.
  destruct s as [ds o pl ps st d ch fr].
  destruct st, ch, d; intros H; inversion H; reflexivity.
Qed.

Lemma stopped_is_positioned s : state s = stateStopped -> positioned s.
Proof. intros E Hne. contradiction. Qed.

Lemma stop_keeps_positioned : keeps positioned stop.
Proof.
  intros s a s' t _ H. apply stopped_is_positioned.
  eapply stop_returns_stopped; eauto.
Qed.

Lemma pause_keeps_positioned : keeps positioned (handle heap cmdPause).
Proof.
  intros s a s' t Hs H. destruct s as [ds o pl ps st d ch fr].
  unfold positioned in *. simpl in *.
  destruct st.
  - inversion H; subst. exact Hs.
  - destruct ch; inversion H; subst; simpl; intros _; apply Hs; discriminate.
  - inversion H; subst; simpl; intros _; apply Hs; discriminate.
Qed.

(** [SetPlaylist] leaves the position inside the new list, or stops. *)
Lemma plist_keeps_positioned new : keeps positioned (handle heap (cmdPlist new)).
Proof.
  intros s a s' t Hs H. unfold handle in H.
  apply bind_inv in H.
  destruct H as [(? & ? & _)|(u & s1 & t1 & t2 & Hset & H & _)];
    [discriminate|].
  apply bind_inv in H.
  destruct H as [(? & ? & _)|(p & s2 & t3 & t4 & Hget & H & _)];
    [discriminate|].
  inversion Hget; subst; clear Hget.
  apply bind_inv in H.
  destruct H as [(? & ? & _)|(u' & s3 & t5 & t6 & Hstop & H & _)];
    [discriminate|].
  inversion H; subst; clear H.
  destruct (pos s2 =? -1) eqn:Ep; simpl in Hstop.
  { apply stopped_is_positioned. eapply stop_returns_stopped; eauto. }
  inversion Hstop; subst; clear Hstop. apply Z.eqb_neq in Ep.
  intros Hne2.
  (* the state was not changed by [setPlaylist] *)
  assert (P : preserves state (setPlaylist new)) by frame.
  pose proof (P _ _ _ _ Hset) as Hst.
  assert (Hne : state s <> stateStopped) by (rewrite <- Hst; exact Hne2).
  destruct (Hs Hne) as (l & Hl & Hpos).
  destruct (l !! Z.to_nat (pos s)) as [cur|] eqn:Hcur.
  2:{ apply lookup_ge_None in Hcur. lia. }
  destruct new as [new|].
  - destruct Hpos as [Hpos0 _].
    rewrite (setPlaylist_relocates new s l cur Hne Hl Hpos0 Hcur) in Hset.
    inversion Hset; subst; clear Hset.
    destruct (index_from cur new 0) as [i|] eqn:Ei;
      cbv [default from_option id] in *.
    + apply index_from_found in Ei as (Hi & Hat & _).
      rewrite Z.sub_0_r in Hat. apply lookup_lt_Some in Hat.
      exists new. destruct s; simpl. split; [reflexivity|lia].
    + destruct s; simpl in Ep. contradiction.
  - destruct s as [ds o pl ps st d ch fr]. simpl in *. subst pl.
    assert (Hlt : (ps <? 0) = false) by (apply Z.ltb_ge; lia).
    destruct st; try contradiction;
      cbv [setPlaylist bind get when ret modify negb pstate_eqb state
           Tracks_Get Tracks_Len panic plist pos] in Hset;
      rewrite Hlt, Hcur in Hset; inversion Hset.
Qed.

Lemma handle_keeps_positioned msg : keeps positioned (handle heap msg).
Proof.
  destruct msg as [| | |l p|l| |];
    try (apply explicit_keeps_positioned; reflexivity).
  - unfold handle. apply keeps_bind; [apply stop_keeps_positioned|].
    intros; apply keeps_ret.
  - apply pause_keeps_positioned.
  - apply plist_keeps_positioned.
  - unfold handle. apply keeps_bind; [apply stop_keeps_positioned|].
    intros; apply keeps_ret.
Qed.

#[local] Hint Resolve play_keeps_positioned handle_keeps_positioned : keep_db.

Lemma tick_keeps_positioned r : keeps positioned (tick heap r).
Proof. keep. Qed.

Lemma keeps_and {A} (I J : playingThread -> Prop) (m : M A) :
  keeps I m -> keeps J m -> keeps (fun s => I s /\ J s) m.
Proof. intros HI HJ s a s' t [Hi Hj] H. split; eauto. Qed.

Lemma iteration_keeps_sound msg r : keeps sound (iteration heap msg r).
Proof.
  apply keeps_and.
  - apply iteration_keeps_consistent.
  - unfold iteration. apply keeps_bind.
    + destruct msg; [apply handle_keeps_positioned|apply keeps_ret].
    + intros q. apply keeps_bind; [apply tick_keeps_positioned|].
      intros; apply keeps_ret.
Qed.

(** X1.  Whatever messages and wake-ups the loop has gone through since
    [newPlayingThread], if it is still running the engine is sound: the
    checker channel is open while playing and closed while paused, a
    decoder is set whenever the engine is not stopped, and
    then there is a playlist with the position inside it. *)
Theorem engine_stays_sound decoders output arrivals :
  outcome (loop heap arrivals (newPlayingThread decoders output)) = Ret tt ->
  sound (final (loop heap arrivals (newPlayingThread decoders output))).
Proof.
  assert (K : forall arrivals, keeps sound (loop heap arrivals)).
  { clear arrivals. induction arrivals as [|[msg r] rest IH]; simpl.
    - apply keeps_ret.
    - apply keeps_bind; [apply iteration_keeps_sound|].
      intros [|]; [apply keeps_ret|exact IH]. }
  intros H.
  destruct (loop heap arrivals (newPlayingThread decoders output))
    as [[r s'] t] eqn:E.
  unfold outcome, final in *; cbn [fst snd] in *; subst r.
  eapply K; [|exact E].
  split; [exact I|]. intros Hne. simpl in Hne. contradiction.
Qed.

(** ** Pause and stop *)

(** X2.  [Pause] toggles: on a playing engine it stops the checker,
    pauses the output and leaves the engine paused with playlist,
    position and decoder untouched; a second [Pause] restarts the
    checker, calls the output again and gives back the engine exactly as
    it was. *)
Theorem pause_twice_resumes s :
  state s = statePlaying ->
  bufAvailable s = chanOpen ->
  (let r := handle heap cmdPause s in
   outcome r = Ret false /\
   trace r = [CheckerStop; OutputPause] /\
   state (final r) = statePaused /\
   bufAvailable (final r) = chanClosed /\
   oPaused (output (final r)) = negb (oPaused (output s)) /\
   (plist (final r), pos (final r), decoder (final r))
     = (plist s, pos s, decoder s)) /\
  (handle heap cmdPause;; handle heap cmdPause) s =
    (Ret false, s, [CheckerStop; OutputPause; CheckerStart; OutputPause]).
Proof.
  destruct s as [ds [io sr chs pa] pl ps st d ch fr]; simpl.
  intros -> ->. split; [repeat split|].
  destruct pa; reflexivity.
Qed.

(** X3.  [Stop] on a playing engine stops the checker first, then closes
    the output and the decoder, and leaves the engine stopped with no
    playlist and position -1. *)
Theorem stop_closes_everything s d :
  state s = statePlaying ->
  bufAvailable s = chanOpen ->
  decoder s = Some d ->
  let r := stop s in
  outcome r = Ret tt /\
  trace r = [CheckerStop; OutputClose; DecoderClose (did d)] /\
  state (final r) = stateStopped /\
  plist (final r) = None /\
  pos (final r) = -1 /\
  oIsOpen (output (final r)) = false.
Proof.
  destruct s as [ds o pl ps st d0 ch fr]; simpl.
  intros -> -> ->. repeat split.
Qed.

(** X4.  A paused engine can only be resumed: [Stop], [Close], [Next]
    and [Prev] all send on the checker channel that [Pause] closed and
    panic before anything else is called or changed, while a second
    [Pause] brings the engine back to playing. *)
Theorem paused_engine_only_resumes s l :
  state s = statePaused ->
  bufAvailable s = chanClosed ->
  plist s = Some l ->
  (forall msg, interrupts msg = true ->
     handle heap msg s = (Abort PanicSendOnClosed, s, [])) /\
  outcome (handle heap cmdPause s) = Ret false /\
  state (final (handle heap cmdPause s)) = statePlaying /\
  bufAvailable (final (handle heap cmdPause s)) = chanOpen.
Proof.
  destruct s as [ds o pl ps st d ch fr]; simpl.
  intros -> -> ->. split; [|repeat split].
  intros msg Hmsg. destruct msg; try discriminate; reflexivity.
Qed.

(** ** Replacing the playlist *)

(** X5.  [SetPlaylist] on an engine that is not stopped, with a list
    that holds the current track object: the position becomes the first
    index of the new list whose entry is that very object (entries with
    equal field values at other addresses are passed over), the new list
    is installed, and nothing is called. *)
Theorem setPlaylist_follows_the_track_object new s l cur i :
  state s <> stateStopped ->
  plist s = Some l ->
  0 <= pos s ->
  l !! Z.to_nat (pos s) = Some cur ->
  index_from cur new 0 = Some i ->
  handle heap (cmdPlist (Some new)) s =
    (Ret false, set_plist (Some new) (set_pos i s), []) /\
  new !! Z.to_nat i = Some cur /\
  (forall k, (k < Z.to_nat i)%nat -> new !! k <> Some cur).
Proof.
  intros Hne Hl Hps Hcur Ei.
  pose proof (setPlaylist_relocates new s l cur Hne Hl Hps Hcur) as Hset.
  rewrite Ei in Hset. cbv [default from_option id] in Hset.
  apply index_from_found in Ei as (Hi & Hat & Hfirst).
  rewrite Z.sub_0_r in Hat, Hfirst. repeat split; auto.
  unfold handle, bind. rewrite Hset.
  assert (Hi' : (i =? -1) = false) by (apply Z.eqb_neq; lia).
  destruct s; simpl. rewrite Hi'. reflexivity.
Qed.

(** X6.  [SetPlaylist] while a track plays, with a list that does not
    hold the current track object: playback is stopped, and the engine
    ends with no playlist at all, the new list included. *)
Theorem setPlaylist_without_track_stops s l cur d new :
  state s = statePlaying ->
  bufAvailable s = chanOpen ->
  decoder s = Some d ->
  plist s = Some l ->
  0 <= pos s ->
  l !! Z.to_nat (pos s) = Some cur ->
  index_from cur new 0 = None ->
  let r := handle heap (cmdPlist (Some new)) s in
  outcome r = Ret false /\
  trace r = [CheckerStop; OutputClose; DecoderClose (did d)] /\
  state (final r) = stateStopped /\
  plist (final r) = None /\
  pos (final r) = -1.
Proof.
  intros Hst Hch Hd Hl Hps Hcur Ei r. subst r.
  assert (Hne : state s <> stateStopped) by (rewrite Hst; discriminate).
  pose proof (setPlaylist_relocates new s l cur Hne Hl Hps Hcur) as Hset.
  rewrite Ei in Hset. cbv [default from_option id] in Hset.
  unfold handle, bind. rewrite Hset.
  destruct s as [ds o pl ps st d0 ch fr]; simpl in *. subst.
  repeat split.
Qed.

(** X7.  [Play] while a track plays, with a list that does not hold the
    current track object: [setPlaylist] leaves the position at -1, and
    [play] then reads the current track at index -1 of the new list,
    which is out of range.  The loop panics after it has stopped the
    checker, leaving the state [Playing]. *)
Theorem play_other_list_panics s l cur new q :
  state s = statePlaying ->
  bufAvailable s = chanOpen ->
  plist s = Some l ->
  0 <= pos s ->
  l !! Z.to_nat (pos s) = Some cur ->
  index_from cur new 0 = None ->
  handle heap (cmdPlay (Some new) q) s =
    (Abort PanicIndex,
     set_bufAvailable chanClosed (set_plist (Some new) (set_pos (-1) s)),
     [CheckerStop]).
Proof.
  intros Hst Hch Hl Hps Hcur Ei.
  assert (Hne : state s <> stateStopped) by (rewrite Hst; discriminate).
  pose proof (setPlaylist_relocates new s l cur Hne Hl Hps Hcur) as Hset.
  rewrite Ei in Hset. cbv [default from_option id] in Hset.
  unfold handle. unfold bind at 1. rewrite Hset.
  destruct s as [ds o pl ps st d0 ch fr]; simpl in *. subst.
  unfold_engine.
  repeat (case_stuck; try reflexivity).
Qed.

(** ** Starting and moving *)

(** X8.  [Play(list, pos)] on a stopped engine, towards a track whose
    extension has a registered decoder that opens the file: a decoder
    is made and opened, a part is seeked to its start, the output is
    opened if it was not, reset, and reconfigured if its sample rate or
    channel count differ from the decoder's, and the checker starts; no
    checker is stopped and no decoder closed.  The engine then plays
    that track with the new decoder. *)
Theorem first_play_starts_playback s (l : Tracks) q nxt n drv :
  state s = stateStopped ->
  l !! Z.to_nat (wrap_pos (Z.of_nat (length l)) q) = Some nxt ->
  heap nxt = Some n ->
  decoders s !! Ext (TPath n) = Some drv ->
  open_fails drv (File (TPath n)) = false ->
  let r := handle heap (cmdPlay (Some l) q) s in
  let file := File (TPath n) in
  outcome r = Ret false /\
  trace r =
    [DecoderNew (fresh s) (Ext (TPath n)); DecoderOpen (fresh s) file] ++
    (if Part n then [DecoderSeek (fresh s) (Start n)] else []) ++
    (if oIsOpen (output s) then [] else [OutputOpen]) ++
    [OutputReset] ++
    (if negb (oSampleRate (output s) =? rate_of drv file) ||
        negb (oChannels (output s) =? channels_of drv file)
     then [OutputSetSampleRate (rate_of drv file);
           OutputSetChannels (channels_of drv file)]
     else []) ++
    [CheckerStart] /\
  state (final r) = statePlaying /\
  plist (final r) = Some l /\
  pos (final r) = wrap_pos (Z.of_nat (length l)) q /\
  decoder (final r) =
    Some {| did := fresh s; driver := drv; dfile := file |} /\
  bufAvailable (final r) = chanOpen.
Proof.
  destruct s as [ds [io sr chs pa] pl ps st d ch fr]; simpl.
  intros -> Hnxt Hn Hdrv Hopen.
  pose proof (wrap_pos_found _ _ _ Hnxt) as Hw.
  unfold_engine.
  rewrite Hw, Hnxt, Hn, Hdrv, Hopen.
  cbv [driver dfile did].
  destruct (Part n), io;
    destruct (sr =? rate_of drv (File (TPath n)));
    destruct (chs =? channels_of drv (File (TPath n)));
    repeat split.
Qed.

(** X9.  A track that is not a part is never seeked: whatever the state
    of the engine and however the move ends, [play] towards a whole-file
    track issues no [Seek]. *)
Theorem whole_file_is_never_seeked p smooth s l nxt n :
  plist s = Some l ->
  l !! Z.to_nat (wrap_pos (Z.of_nat (length l)) p) = Some nxt ->
  heap nxt = Some n ->
  Part n = false ->
  count is_seek (trace (play heap p smooth s)) = 0%nat.
Proof.
  destruct s as [ds o pl ps st d ch fr]; simpl.
  intros -> Hnxt Hn HP.
  pose proof (wrap_pos_found _ _ _ Hnxt) as Hw.
  destruct st, ch; unfold_engine; try reflexivity;
    rewrite Hw, Hnxt; repeat (case_stuck; try reflexivity);
    try congruence.
Qed.

(** X10.  While a track plays, a move to a part that lies in another
    file, or that does not start where the playing track ends, seeks
    exactly once when it goes through: to the start of the part, on the
    decoder the engine ends up with. *)
Theorem part_after_jump_is_seeked_once p smooth s l cur nxt c n :
  state s = statePlaying ->
  plist s = Some l ->
  0 <= pos s ->
  l !! Z.to_nat (pos s) = Some cur ->
  l !! Z.to_nat (wrap_pos (Z.of_nat (length l)) p) = Some nxt ->
  heap cur = Some c -> heap nxt = Some n ->
  Part n = true ->
  File (TPath c) <> File (TPath n) \/ End c <> Start n ->
  outcome (play heap p smooth s) = Ret tt ->
  exists d',
    decoder (final (play heap p smooth s)) = Some d' /\
    filter (fun e => is_seek e = true) (trace (play heap p smooth s))
      = [DecoderSeek (did d') (Start n)].
Proof.
  destruct s as [ds o pl ps st d ch fr]; simpl.
  intros -> -> Hps Hcur Hnxt Hc Hn HP Hfar.
  pose proof (wrap_pos_found _ _ _ Hnxt) as Hw.
  assert (Hps' : (ps <? 0) = false) by (apply Z.ltb_ge; lia).
  assert (Hsame : String.eqb (File (TPath c)) (File (TPath n)) = false \/
                  (String.eqb (File (TPath c)) (File (TPath n)) = true /\
                   (End c =? Start n) = false)).
  { destruct (String.eqb_spec (File (TPath c)) (File (TPath n))) as [E|E];
      [right|left; reflexivity].
    split; [reflexivity|]. apply Z.eqb_neq. destruct Hfar; tauto. }
  unfold_engine.
  destruct ch; try discriminate.
  rewrite Hw, Hnxt, Hps', Hcur, Hc, Hn.
  destruct Hsame as [E|[E E']]; rewrite E; try rewrite E'; rewrite ?HP;
    repeat (case_stuck; try discriminate);
    intros _; eexists; split; reflexivity.
Qed.

(** X11.  While a track plays, a move to a track of the same file keeps
    the decoder: none is closed, made or opened, however the move ends,
    and the engine still holds the decoder it had. *)
Theorem same_file_keeps_the_decoder p smooth s l cur nxt c n :
  state s = statePlaying ->
  plist s = Some l ->
  0 <= pos s ->
  l !! Z.to_nat (pos s) = Some cur ->
  l !! Z.to_nat (wrap_pos (Z.of_nat (length l)) p) = Some nxt ->
  heap cur = Some c -> heap nxt = Some n ->
  File (TPath c) = File (TPath n) ->
  count touches_decoder (trace (play heap p smooth s)) = 0%nat /\
  decoder (final (play heap p smooth s)) = decoder s.
Proof.
  destruct s as [ds o pl ps st d ch fr]; simpl.
  intros -> -> Hps Hcur Hnxt Hc Hn HF.
  pose proof (wrap_pos_found _ _ _ Hnxt) as Hw.
  assert (Hps' : (ps <? 0) = false) by (apply Z.ltb_ge; lia).
  apply String.eqb_eq in HF.
  unfold_engine.
  destruct ch; try (split; reflexivity).
  rewrite Hw, Hnxt, Hps', Hcur, Hc, Hn, HF.
  repeat (case_stuck; try (split; reflexivity)).
Qed.

(** ** The decode step *)

Lemma play_never_reads p smooth : emits_only not_read (play heap p smooth).
Proof. quiet. Qed.

(** X12.  When the playing track is a part and the decoder's time has
    reached the end of the part, the decode step does not read from the
    decoder: it asks for the time and moves on to the next track as a
    natural advance. *)
Theorem part_end_is_not_read_past r s l cur c :
  state s = statePlaying ->
  plist s = Some l ->
  0 <= pos s ->
  l !! Z.to_nat (pos s) = Some cur ->
  heap cur = Some c ->
  Part c = true ->
  End c <= elapsed r ->
  count is_read (trace (tick heap r s)) = 0%nat /\
  (forall d, decoder s = Some d ->
     tick heap r s =
       (outcome (play heap (pos s + 1) true s),
        final (play heap (pos s + 1) true s),
        [OutputAvailUpdate; DecoderTime (did d)] ++
        trace (play heap (pos s + 1) true s))).
Proof.
  intros Hst Hl Hps Hcur Hc HP Hend.
  assert (Hps' : (pos s <? 0) = false) by (apply Z.ltb_ge; lia).
  assert (Hlt : (elapsed r <? End c) = false) by (apply Z.ltb_ge; lia).
  split.
  - apply count_quiet.
    assert (Q : emits_only not_read
                  (p <- get pos;; play heap (p + 1) true)).
    { apply emits_only_bind; [apply emits_only_get|].
      intros; apply play_never_reads. }
    specialize (Q s).
    destruct s as [ds o pl ps st d ch fr]; simpl in *. subst.
    revert Q. unfold tick.
    cbv [bind get when pstate_eqb state emit plist pos Tracks_Get deref
         decoder_Time with_decoder decoder ret negb trace panic].
    rewrite Hps', Hcur, Hc, HP. destruct d as [d|]; [|reflexivity].
    rewrite Hlt. cbv [Z.eqb].
    destruct (play heap (ps + 1) true _) as [[o' s'] t']. simpl.
    intros Q. exact Q.
  - intros d Hd.
    destruct s as [ds o pl ps st d0 ch fr]; simpl in *. subst.
    unfold tick.
    cbv [bind get when pstate_eqb state emit plist pos Tracks_Get deref
         decoder_Time with_decoder decoder ret negb trace panic].
    rewrite Hps', Hcur, Hc, HP, Hlt. cbv [Z.eqb].
    destruct (play heap (ps + 1) true _) as [[o' s'] t']. reflexivity.
Qed.

(** X13.  A decode step that reads bytes writes all of them to the
    output and changes nothing in the engine; the decoder is asked for
    its time only when the playing track is a part. *)
Theorem decode_step_writes_what_it_reads r s l cur c d :
  state s = statePlaying ->
  plist s = Some l ->
  0 <= pos s ->
  l !! Z.to_nat (pos s) = Some cur ->
  heap cur = Some c ->
  decoder s = Some d ->
  Part c = false \/ elapsed r < End c ->
  nread r <> 0 ->
  tick heap r s =
    (Ret tt, s,
     [OutputAvailUpdate] ++
     (if Part c then [DecoderTime (did d)] else []) ++
     [DecoderRead (did d) (nread r); OutputWriteAll (nread r)]).
Proof.
  destruct s as [ds o pl ps st d0 ch fr]; simpl.
  intros -> -> Hps Hcur Hc -> Hgo Hn.
  assert (Hps' : (ps <? 0) = false) by (apply Z.ltb_ge; lia).
  apply Z.eqb_neq in Hn.
  unfold_engine. rewrite Hps', Hcur, Hc.
  destruct (Part c).
  - destruct Hgo as [Hgo|Hgo]; [discriminate|].
    apply Z.ltb_lt in Hgo. rewrite Hgo, Hn. reflexivity.
  - rewrite Hn. reflexivity.
Qed.

(** X14.  After [Close] the loop handles nothing more: whatever arrives
    behind it is ignored, and a [Close] that returns leaves the engine
    stopped. *)
Theorem close_ends_the_loop r rest s :
  loop heap ((Some cmdClose, r) :: rest) s =
    loop heap [(Some cmdClose, r)] s /\
  (outcome (loop heap ((Some cmdClose, r) :: rest) s) = Ret tt ->
   state (final (loop heap ((Some cmdClose, r) :: rest) s)) = stateStopped).
Proof.
  destruct s as [ds o pl ps st d ch fr].
  destruct st, ch, d; split; try reflexivity; try discriminate.
Qed.

End WithHeap.

(** ** Concrete runs *)

(** X1, at a concrete run: play, pause, resume, next. *)
Lemma engine_stays_sound_witness :
  sound (final (loop Album.heap
                  [(Some (cmdPlay (Some Album.five) 1), Album.more 512);
                   (Some cmdPause, Album.more 512);
                   (Some cmdPause, Album.more 512);
                   (Some cmdNext, Album.more 0)]
                  (newPlayingThread Album.drivers Album.speaker))).
Proof.
  apply (engine_stays_sound Album.heap). vm_compute. reflexivity.
Defined.

(** X2, at a concrete state: the second track is playing. *)
Lemma pause_twice_resumes_witness :
  (handle Album.heap cmdPause;; handle Album.heap cmdPause) (Album.playing 1)
  = (Ret false, Album.playing 1,
     [CheckerStop; OutputPause; CheckerStart; OutputPause]).
Proof.
  assert (H1 : state (Album.playing 1) = statePlaying)
    by (vm_compute; reflexivity).
  assert (H2 : bufAvailable (Album.playing 1) = chanOpen)
    by (vm_compute; reflexivity).
  exact (proj2 (pause_twice_resumes Album.heap (Album.playing 1) H1 H2)).
Defined.

(** X3, at a concrete state: the second track is playing. *)
Lemma stop_closes_everything_witness :
  trace (stop (Album.playing 1)) =
    [CheckerStop; OutputClose; DecoderClose 0].
Proof.
  assert (H1 : state (Album.playing 1) = statePlaying)
    by (vm_compute; reflexivity).
  assert (H2 : bufAvailable (Album.playing 1) = chanOpen)
    by (vm_compute; reflexivity).
  assert (H3 : decoder (Album.playing 1) = Some Album.first_decoder)
    by (vm_compute; reflexivity).
  exact (proj1 (proj2 (stop_closes_everything (Album.playing 1)
                         Album.first_decoder H1 H2 H3))).
Defined.

(** X4, at a concrete state: the second track is paused, [Stop]
    arrives. *)
Lemma paused_engine_only_resumes_witness :
  handle Album.heap cmdStop (Album.paused 1)
  = (Abort PanicSendOnClosed, Album.paused 1, []).
Proof.
  assert (H1 : state (Album.paused 1) = statePaused)
    by (vm_compute; reflexivity).
  assert (H2 : bufAvailable (Album.paused 1) = chanClosed)
    by (vm_compute; reflexivity).
  assert (H3 : plist (Album.paused 1) = Some Album.five)
    by (vm_compute; reflexivity).
  exact (proj1 (paused_engine_only_resumes Album.heap (Album.paused 1)
                  Album.five H1 H2 H3) cmdStop eq_refl).
Defined.

(** X5, at a concrete state: the second track is playing; the new list
    holds an equal-valued object first and the object itself at index
    2. *)
Lemma setPlaylist_follows_the_track_object_witness :
  handle Album.heap (cmdPlist (Some [5; 3; 2; 2]%nat)) (Album.playing 1)
  = (Ret false,
     set_plist (Some [5; 3; 2; 2]%nat) (set_pos 2 (Album.playing 1)), []).
Proof.
  assert (H1 : state (Album.playing 1) <> stateStopped)
    by (vm_compute; discriminate).
  assert (H2 : plist (Album.playing 1) = Some Album.five)
    by (vm_compute; reflexivity).
  assert (H3 : 0 <= pos (Album.playing 1)) by (vm_compute; discriminate).
  assert (H4 : Album.five !! Z.to_nat (pos (Album.playing 1)) = Some 2%nat)
    by (vm_compute; reflexivity).
  assert (H5 : index_from 2%nat [5; 3; 2; 2]%nat 0 = Some 2)
    by (vm_compute; reflexivity).
  exact (proj1 (setPlaylist_follows_the_track_object Album.heap
                  [5; 3; 2; 2]%nat (Album.playing 1) Album.five 2%nat 2
                  H1 H2 H3 H4 H5)).
Defined.

(** X6, at a concrete state: the second track is playing; the new list
    holds an equal-valued object but not the object itself. *)
Lemma setPlaylist_without_track_stops_witness :
  plist (final (handle Album.heap (cmdPlist (Some [1; 5; 3]%nat))
                  (Album.playing 1))) = None.
Proof.
  assert (H1 : state (Album.playing 1) = statePlaying)
    by (vm_compute; reflexivity).
  assert (H2 : bufAvailable (Album.playing 1) = chanOpen)
    by (vm_compute; reflexivity).
  assert (H3 : decoder (Album.playing 1) = Some Album.first_decoder)
    by (vm_compute; reflexivity).
  assert (H4 : plist (Album.playing 1) = Some Album.five)
    by (vm_compute; reflexivity).
  assert (H5 : 0 <= pos (Album.playing 1)) by (vm_compute; discriminate).
  assert (H6 : Album.five !! Z.to_nat (pos (Album.playing 1)) = Some 2%nat)
    by (vm_compute; reflexivity).
  assert (H7 : index_from 2%nat [1; 5; 3]%nat 0 = None)
    by (vm_compute; reflexivity).
  exact (proj1 (proj2 (proj2 (proj2
           (setPlaylist_without_track_stops Album.heap (Album.playing 1)
              Album.five 2%nat Album.first_decoder [1; 5; 3]%nat
              H1 H2 H3 H4 H5 H6 H7))))).
Defined.

(** X7, at a concrete state: the second track is playing, [Play] brings
    a list without it. *)
Lemma play_other_list_panics_witness :
  outcome (handle Album.heap (cmdPlay (Some [1; 5; 3]%nat) 0)
             (Album.playing 1)) = Abort PanicIndex.
Proof.
  assert (H1 : state (Album.playing 1) = statePlaying)
    by (vm_compute; reflexivity).
  assert (H2 : bufAvailable (Album.playing 1) = chanOpen)
    by (vm_compute; reflexivity).
  assert (H4 : plist (Album.playing 1) = Some Album.five)
    by (vm_compute; reflexivity).
  assert (H5 : 0 <= pos (Album.playing 1)) by (vm_compute; discriminate).
  assert (H6 : Album.five !! Z.to_nat (pos (Album.playing 1)) = Some 2%nat)
    by (vm_compute; reflexivity).
  assert (H7 : index_from 2%nat [1; 5; 3]%nat 0 = None)
    by (vm_compute; reflexivity).
  exact (f_equal outcome
           (play_other_list_panics Album.heap (Album.playing 1) Album.five
              2%nat [1; 5; 3]%nat 0 H1 H2 H4 H5 H6 H7)).
Defined.

(** X8, at a concrete state: [Play(five, 7)] on the idle engine. *)
Lemma first_play_starts_playback_witness :
  state (final (handle Album.heap (cmdPlay (Some Album.five) 7) Album.idle))
  = statePlaying.
Proof.
  assert (H1 : state Album.idle = stateStopped) by reflexivity.
  assert (H2 : Album.five !! Z.to_nat
                 (wrap_pos (Z.of_nat (length Album.five)) 7) = Some 1%nat)
    by (vm_compute; reflexivity).
  assert (H3 : Album.heap 1%nat = Some Album.side_a1) by reflexivity.
  assert (H4 : decoders Album.idle !! Ext (TPath Album.side_a1)
               = Some Album.mp3) by (vm_compute; reflexivity).
  assert (H5 : open_fails Album.mp3 (File (TPath Album.side_a1)) = false)
    by (vm_compute; reflexivity).
  exact (proj1 (proj2 (proj2
           (first_play_starts_playback Album.heap Album.idle Album.five 7
              1%nat Album.side_a1 Album.mp3 H1 H2 H3 H4 H5)))).
Defined.

(** X9, at a concrete state: [Next] from the last part of a.mp3 to the
    whole file c.mp3. *)
Lemma whole_file_is_never_seeked_witness :
  count is_seek (trace (play Album.heap 3 false (Album.playing 2))) = 0%nat.
Proof.
  apply (whole_file_is_never_seeked Album.heap 3 false (Album.playing 2)
           Album.five 4%nat Album.single_c);
    vm_compute; reflexivity.
Defined.

(** X10, at a concrete state: from the file c.mp3 to the second part of
    a.mp3. *)
Lemma part_after_jump_is_seeked_once_witness :
  exists d',
    decoder (final (play Album.heap 1 false (Album.playing 3))) = Some d' /\
    filter (fun e => is_seek e = true)
      (trace (play Album.heap 1 false (Album.playing 3)))
    = [DecoderSeek (did d') (Start Album.side_a2)].
Proof.
  apply (part_after_jump_is_seeked_once Album.heap 1 false (Album.playing 3)
           Album.five 4%nat 2%nat Album.single_c Album.side_a2);
    try (vm_compute; reflexivity).
  - vm_compute. discriminate.
  - left. vm_compute. discriminate.
Defined.

(** X11, at a concrete state: [Prev] from the second part of a.mp3 to
    the first. *)
Lemma same_file_keeps_the_decoder_witness :
  decoder (final (play Album.heap 0 false (Album.playing 1)))
  = decoder (Album.playing 1).
Proof.
  apply (same_file_keeps_the_decoder Album.heap 0 false (Album.playing 1)
           Album.five 2%nat 1%nat Album.side_a2 Album.side_a1);
    try (vm_compute; reflexivity).
  vm_compute. discriminate.
Defined.

(** X12, at a concrete state: the second part of a.mp3 is playing and
    the decoder's time is the end of the part. *)
Lemma part_end_is_not_read_past_witness :
  count is_read
    (trace (tick Album.heap {| elapsed := 180; nread := 512 |}
              (Album.playing 1))) = 0%nat.
Proof.
  apply (part_end_is_not_read_past Album.heap
           {| elapsed := 180; nread := 512 |} (Album.playing 1)
           Album.five 2%nat Album.side_a2);
    try (vm_compute; reflexivity); vm_compute; discriminate.
Defined.

(** X13, at a concrete state: the second part of a.mp3 is playing and
    512 bytes are read. *)
Lemma decode_step_writes_what_it_reads_witness :
  tick Album.heap (Album.more 512) (Album.playing 1) =
    (Ret tt, Album.playing 1,
     [OutputAvailUpdate; DecoderTime 0; DecoderRead 0 512;
      OutputWriteAll 512]).
Proof.
  apply (decode_step_writes_what_it_reads Album.heap (Album.more 512)
           (Album.playing 1) Album.five 2%nat Album.side_a2 Album.first_decoder);
    try (vm_compute; reflexivity).
  - vm_compute. discriminate.
  - right. vm_compute. reflexivity.
  - vm_compute. discriminate.
Defined.

(** X14, at a concrete state: [Close] while the second track plays,
    with a [Next] behind it. *)
Lemma close_ends_the_loop_witness :
  state (final (loop Album.heap
                  [(Some cmdClose, Album.more 512);
                   (Some cmdNext, Album.more 512)] (Album.playing 1)))
  = stateStopped.
Proof.
  apply (proj2 (close_ends_the_loop Album.heap (Album.more 512)
                  [(Some cmdNext, Album.more 512)] (Album.playing 1))).
  vm_compute. reflexivity.
Defined.

End EngineMore.

(* ===================================================================== *)
(** * Further properties of the playlist registry                         *)
(* ===================================================================== *)

Module RegistryMore.
Import Registry RegistrySpec.

(** The names of the playlists, in registry order. *)
Local Abbreviation names ps := (Name <$> ps).

(** ** Looking up by name *)

Lemma lookup_none_iff ps name :
  getPlaylistByName ps name = None <-> name ∉ names ps.
Proof.
  induction ps as [|p rest IH]; simpl.
  - split; [intros _; apply not_elem_of_nil|reflexivity].
  - destruct (String.eqb_spec (Name p) name) as [E|E].
    + split; [discriminate|]. intros H. exfalso. apply H. subst.
      apply list_elem_of_here.
    + rewrite IH. rewrite not_elem_of_cons.
      split; [intros H; split; [congruence|exact H]|intros [_ H]; exact H].
Qed.

Lemma lookup_app_none before after name :
  getPlaylistByName before name = None ->
  getPlaylistByName (before ++ after) name = getPlaylistByName after name.
Proof.
  induction before as [|p rest IH]; simpl; [reflexivity|].
  destruct (String.eqb (Name p) name); [discriminate|exact IH].
Qed.

Lemma lookup_app_some before after name p :
  getPlaylistByName before name = Some p ->
  getPlaylistByName (before ++ after) name = Some p.
Proof.
  induction before as [|q rest IH]; simpl; [discriminate|].
  destruct (String.eqb (Name q) name); [trivial|exact IH].
Qed.

(** Ordinary playlists none of which has the name: what the walk of
    [cmdPlaylistsDelete] passes over. *)
Lemma passed_over ps name :
  Forall (fun p => system p = false) ps -> name ∉ names ps ->
  Forall (fun q => system q = false /\ Name q <> name) ps.
Proof.
  intros Hsys. induction Hsys as [|q rest Hq _ IH]; intros Hn; constructor.
  - split; [exact Hq|]. simpl in Hn. rewrite not_elem_of_cons in Hn.
    intros E. apply (proj1 Hn). symmetry. exact E.
  - apply IH. simpl in Hn. rewrite not_elem_of_cons in Hn. tauto.
Qed.

(** [getPlaylistByName] returns the first playlist of the registry that
    has the name, and nil exactly when no playlist has it. *)
Lemma lookup_finds_the_first ps name :
  (forall p, getPlaylistByName ps name = Some p <->
     exists before after,
       ps = before ++ p :: after /\ Name p = name /\ name ∉ names before) /\
  (getPlaylistByName ps name = None <-> name ∉ names ps).
Proof.
  split; [|apply lookup_none_iff].
  intros p. split.
  - induction ps as [|q rest IH]; simpl; [discriminate|].
    destruct (String.eqb_spec (Name q) name) as [E|E].
    + intros H; inversion H; subst. exists [], rest.
      repeat split. apply not_elem_of_nil.
    + intros H. destruct (IH H) as (before & after & -> & Hn & Hb).
      exists (q :: before), after. repeat split; auto.
      simpl. rewrite not_elem_of_cons. auto.
  - intros (before & after & -> & Hn & Hb).
    apply lookup_none_iff in Hb. rewrite (lookup_app_none _ _ _ Hb).
    simpl. apply String.eqb_eq in Hn. rewrite Hn. reflexivity.
Qed.

Section WithConstructor.
Variable newPlaylist : string -> Playlist.

(** [newPlaylist] gives the playlist the name it is asked for. *)
Hypothesis newPlaylist_Name : forall name, Name (newPlaylist name) = name.

(** ** Adding *)

(** X15.  Adding a name no playlist has puts the new playlist at the end
    of the registry, where a lookup of the name finds it, and leaves the
    lookup of every other name as it was. *)
Theorem added_playlist_is_found ps name :
  getPlaylistByName ps name = None ->
  cmdPlaylistsAdd newPlaylist name ps = (None, ps ++ [newPlaylist name]) /\
  getPlaylistByName (ps ++ [newPlaylist name]) name
    = Some (newPlaylist name) /\
  (forall other, other <> name ->
     getPlaylistByName (ps ++ [newPlaylist name]) other
     = getPlaylistByName ps other).
Proof.
  intros H. unfold cmdPlaylistsAdd. rewrite H. split; [reflexivity|]. split.
  - rewrite (lookup_app_none _ _ _ H). simpl.
    rewrite newPlaylist_Name, String.eqb_refl. reflexivity.
  - intros other Hne.
    destruct (getPlaylistByName ps other) as [q|] eqn:E.
    + apply lookup_app_some. exact E.
    + rewrite (lookup_app_none _ _ _ E). simpl.
      rewrite newPlaylist_Name.
      assert (Hf : String.eqb name other = false)
        by (apply String.eqb_neq; congruence).
      rewrite Hf. reflexivity.
Qed.

(** Adding keeps the names of the registry distinct, whether the name
    was free or not. *)
Lemma add_keeps_names_distinct ps name :
  NoDup (names ps) ->
  NoDup (names (snd (cmdPlaylistsAdd newPlaylist name ps))).
Proof.
  intros Hnd. unfold cmdPlaylistsAdd.
  destruct (getPlaylistByName ps name) as [p|] eqn:E; simpl; [exact Hnd|].
  apply lookup_none_iff in E.
  rewrite fmap_app. simpl. rewrite newPlaylist_Name.
  apply NoDup_app. repeat split; [exact Hnd| |apply NoDup_singleton].
  intros x Hx Hx'. apply list_elem_of_singleton in Hx'. subst. contradiction.
Qed.

End WithConstructor.

(** ** Deleting *)

(** X16.  With no system playlist in the registry, deleting never fails
    and removes exactly the first playlist of the name: the registry is
    unchanged when no playlist has the name, and otherwise the playlists
    before and after the first match stay, in order. *)
Theorem delete_removes_the_first_match ps name :
  Forall (fun p => system p = false) ps ->
  fst (cmdPlaylistsDelete name ps) = None /\
  (name ∉ names ps -> snd (cmdPlaylistsDelete name ps) = ps) /\
  (forall before p after,
     ps = before ++ p :: after -> name ∉ names before -> Name p = name ->
     snd (cmdPlaylistsDelete name ps) = before ++ after).
Proof.
  intros Hsys. split; [|split].
  - induction Hsys as [|p rest Hp _ IH]; simpl; [reflexivity|].
    rewrite Hp. destruct (String.eqb (Name p) name); [reflexivity|].
    destruct (cmdPlaylistsDelete name rest). exact IH.
  - induction Hsys as [|p rest Hp _ IH]; simpl; [reflexivity|].
    intros Hn. rewrite not_elem_of_cons in Hn. destruct Hn as [Hne Hn].
    rewrite Hp.
    assert (Hf : String.eqb (Name p) name = false)
      by (apply String.eqb_neq; congruence).
    rewrite Hf. specialize (IH Hn).
    destruct (cmdPlaylistsDelete name rest). simpl in *. congruence.
  - intros before p after -> Hb Hn.
    apply Forall_app in Hsys as [Hsb Hsp].
    rewrite (delete_before_system_removes name before p after); auto.
    + apply passed_over; assumption.
    + apply (Forall_inv Hsp).
Qed.

(** Deleting keeps the names of the registry distinct, and never adds a
    playlist: what is left is a sublist of the registry. *)
Lemma delete_keeps_names_distinct ps name :
  sublist (snd (cmdPlaylistsDelete name ps)) ps /\
  (NoDup (names ps) -> NoDup (names (snd (cmdPlaylistsDelete name ps)))).
Proof.
  assert (Hsub : sublist (snd (cmdPlaylistsDelete name ps)) ps).
  { induction ps as [|p rest IH]; simpl; [constructor|].
    destruct (system p); [reflexivity|].
    destruct (String.eqb (Name p) name); simpl.
    - apply sublist_cons. reflexivity.
    - destruct (cmdPlaylistsDelete name rest) as [e rest']. simpl in *.
      apply sublist_skip. exact IH. }
  split; [exact Hsub|].
  intros Hnd. eapply sublist_NoDup; [exact Hnd|].
  apply fmap_sublist. exact Hsub.
Qed.

(** X17.  The commands keep the names of the registry distinct: from a
    registry without two playlists of the same name, a turn of
    [playingProcess] gives such a registry again, whatever the command
    and its argument, when [newPlaylist] gives the playlist the name it
    is asked for. *)
Theorem names_stay_distinct newPlaylist c arg ps :
  (forall name, Name (newPlaylist name) = name) ->
  NoDup (names ps) ->
  NoDup (names (snd (playingProcess newPlaylist c arg ps))).
Proof.
  intros Hname Hnd. destruct c; simpl; try exact Hnd.
  - pose proof (add_keeps_names_distinct newPlaylist Hname ps arg Hnd) as H.
    destruct (cmdPlaylistsAdd newPlaylist arg ps). exact H.
  - pose proof (proj2 (delete_keeps_names_distinct ps arg) Hnd) as H.
    destruct (cmdPlaylistsDelete arg ps). exact H.
Qed.

(** X18.  A command answered with an error has not changed the
    registry; neither has a LIST, an unsupported command, or the ADD of
    a name in use. *)
Theorem failed_command_changes_nothing newPlaylist c arg ps :
  (forall e, err (fst (playingProcess newPlaylist c arg ps)) = Some e ->
     snd (playingProcess newPlaylist c arg ps) = ps) /\
  (c = CMD_PLAYLISTS_LIST \/ (exists n, c = CMD_OTHER n) ->
     snd (playingProcess newPlaylist c arg ps) = ps) /\
  (c = CMD_PLAYLISTS_ADD -> getPlaylistByName ps arg <> None ->
     snd (playingProcess newPlaylist c arg ps) = ps).
Proof.
  split; [|split].
  - intros e. destruct c; simpl; try reflexivity.
    + destruct (cmdPlaylistsAdd newPlaylist arg ps). simpl. discriminate.
    + destruct (cmdPlaylistsDelete arg ps) as [e' ps'] eqn:E. simpl.
      intros ->.
      pose proof (delete_error_leaves arg ps e) as H. rewrite E in H.
      specialize (H eq_refl). inversion H. reflexivity.
  - intros [->|[n ->]]; reflexivity.
  - intros -> H. simpl. unfold cmdPlaylistsAdd.
    destruct (getPlaylistByName ps arg); [reflexivity|contradiction].
Qed.

(** ** Adding and deleting *)

(** X19.  In a registry without a system playlist, adding a free name
    and then deleting it gives the registry back, when [newPlaylist]
    makes an ordinary playlist of that name. *)
Theorem add_then_delete_restores newPlaylist ps name :
  Name (newPlaylist name) = name ->
  system (newPlaylist name) = false ->
  Forall (fun p => system p = false) ps ->
  getPlaylistByName ps name = None ->
  cmdPlaylistsDelete name (snd (cmdPlaylistsAdd newPlaylist name ps))
    = (None, ps).
Proof.
  intros Hname Hsys Hps Hfree. unfold cmdPlaylistsAdd. rewrite Hfree. simpl.
  rewrite (delete_before_system_removes name ps (newPlaylist name) []);
    auto.
  - rewrite app_nil_r. reflexivity.
  - apply passed_over; [exact Hps|]. apply lookup_none_iff. exact Hfree.
Qed.

(** ** Concrete registries *)

(** X15, at a concrete registry: a playlist is added to the shelf. *)
Lemma added_playlist_is_found_witness :
  getPlaylistByName (shelf ++ [plain "jazz"]) "jazz" = Some (plain "jazz").
Proof.
  apply (added_playlist_is_found plain (fun _ => eq_refl) shelf "jazz").
  reflexivity.
Defined.

(** X17, at a concrete registry: a playlist is added to the shelf. *)
Lemma names_stay_distinct_witness :
  NoDup (names (snd (playingProcess plain CMD_PLAYLISTS_ADD "jazz" shelf))).
Proof.
  apply (names_stay_distinct plain CMD_PLAYLISTS_ADD "jazz" shelf).
  - reflexivity.
  - apply (bool_decide_unpack _). vm_compute. exact I.
Defined.

(** X16, at a concrete registry: two playlists of the user. *)
Lemma delete_removes_the_first_match_witness :
  snd (cmdPlaylistsDelete "rock" [plain "jazz"; rock]) = [plain "jazz"].
Proof.
  apply (proj2 (proj2 (delete_removes_the_first_match
                         [plain "jazz"; rock] "rock"
                         ltac:(repeat constructor)))
           [plain "jazz"] rock []).
  - reflexivity.
  - apply (bool_decide_unpack _). vm_compute. exact I.
  - reflexivity.
Defined.

(** X18, at a concrete registry: deleting from the shelf fails. *)
Lemma failed_command_changes_nothing_witness :
  snd (playingProcess plain CMD_PLAYLISTS_DELETE "rock" shelf) = shelf.
Proof.
  apply (proj1 (failed_command_changes_nothing plain CMD_PLAYLISTS_DELETE
                  "rock" shelf) ErrSystem).
  reflexivity.
Defined.

(** X19, at a concrete registry: one playlist of the user. *)
Lemma add_then_delete_restores_witness :
  cmdPlaylistsDelete "jazz" (snd (cmdPlaylistsAdd plain "jazz" [rock]))
  = (None, [rock]).
Proof.
  apply (add_then_delete_restores plain [rock] "jazz");
    try reflexivity. repeat constructor.
Defined.

End RegistryMore.

(* ===================================================================== *)
(** * Further properties of the client session                            *)
(* ===================================================================== *)

Module SessionMore.
Import Session SessionSpec.
Local Open Scope string_scope.

Section WithCollaborators.
Variable player_Add : string -> string -> option string.
Variable player_AddPlaylist : string -> option string.
Variable player_Playlists : list (string * Z).
Variable path_List : string -> string + list entry.
Variable Quote : string -> string.
Variable Itoa : Z -> string.

Abbreviation HandleCommand :=
  (HandleCommand player_Add player_AddPlaylist player_Playlists path_List
     Quote Itoa).
Abbreviation HandleCommand_text :=
  (HandleCommand_text player_Add player_AddPlaylist player_Playlists
     path_List Quote Itoa).
Abbreviation entry_line := (entry_line Quote Itoa).
Abbreviation playlist_line := (playlist_line Quote Itoa).

(** X20.  [LS] of a directory whose entries are tracks and directories
    answers [OK], one line for each entry in the order [List] gave them,
    and the blank line; it does not ask to quit. *)
Theorem ls_writes_a_line_per_entry cmd dir es cl :
  name cmd = cmdLs ->
  arg_string cmd 0 = Some dir ->
  path_List dir = inr es ->
  forallb supported es = true ->
  HandleCommand cmd cl =
    Some (false,
          {| out := out cl ++ "OK" ++ nl ++
                    unlines (map entry_line es) ++ nl |}).
Proof.
  intros Hname Harg Hdir Hes.
  rewrite HandleCommand_text, Hname, Harg, Hdir, Hes. reflexivity.
Qed.

(** [PLAYLISTS] answers [OK], one line with name and length for each
    playlist of the player, in the player's order, and the blank line. *)
Lemma playlists_writes_a_line_per_playlist cmd cl :
  name cmd = cmdPlaylists ->
  HandleCommand cmd cl =
    Some (false,
          {| out := out cl ++ "OK" ++ nl ++
                    unlines (map playlist_line player_Playlists) ++ nl |}).
Proof. intros Hname. rewrite HandleCommand_text, Hname. reflexivity. Qed.

(** An argument cannot be read as a string when it is missing or is a
    value of another type. *)
Lemma arg_string_None cmd i :
  arg_string cmd i = None <->
  args cmd !! i = None \/ args cmd !! i = Some vOther.
Proof.
  unfold arg_string. destruct (args cmd !! i) as [[s|]|].
  - split; [discriminate|intros [H|H]; discriminate].
  - split; auto.
  - split; auto.
Qed.



(** The connection is asked to close after [QUIT] and after no other
    command. *)
Lemma quit_only_after_QUIT cmd cl quit cl' :
  HandleCommand cmd cl = Some (quit, cl') ->
  (quit = true <-> name cmd = cmdQuit).
Proof.
  rewrite HandleCommand_text.
  destruct (name cmd); try discriminate;
    repeat match goal with
           | |- context [match ?x with _ => _ end] => destruct x
           end;
    try discriminate;
    intros H; inversion H; subst; split; try discriminate; reflexivity.
Qed.

(** X22.  The handler only appends to the output: the greeting of
    [Init], and what a command writes, whether it panics and whether it
    asks to quit, do not depend on what has been written before, so the
    answer on any connection is the answer on a new one put after the
    earlier output. *)
Theorem response_is_appended cmd cl :
  out (Init cl) = out cl ++ out (Init fresh_handler) /\
  HandleCommand cmd cl =
    match HandleCommand cmd fresh_handler with
    | Some (quit, answer) => Some (quit, {| out := out cl ++ out answer |})
    | None => None
    end.
Proof.
  split.
  - unfold Init, eom, ok, writeLn, write. simpl.
    rewrite ?append_assoc. reflexivity.
  - rewrite !HandleCommand_text.
    destruct (name cmd); try reflexivity.
    + destruct (arg_string cmd 0); [|reflexivity].
      destruct (arg_string cmd 1); reflexivity.
    + destruct (arg_string cmd 0); reflexivity.
    + destruct (arg_string cmd 0) as [dir|]; [|reflexivity].
      destruct (path_List dir) as [e|es]; [reflexivity|].
      destruct (forallb supported es); reflexivity.
Qed.

End WithCollaborators.

(** ** Concrete sessions *)

(** X20, at a concrete directory: a track and a directory. *)
Lemma ls_writes_a_line_per_entry_witness :
  Session.HandleCommand quiet_Add quiet_AddPlaylist [] two_entries bare
    digits (LS "/music") fresh_handler =
  Some (false,
        {| out := unlines
             ["OK";
              "Type: TRACK, Artist: X, Album: Y, Title: Z, Number: 0, Length: 0";
              "Type: DIRECTORY, Name: live, Path: /music/live";
              EmptyString] |}).
Proof.
  apply (ls_writes_a_line_per_entry quiet_Add quiet_AddPlaylist []
           two_entries bare digits (LS "/music") "/music"
           [a_track; a_directory] fresh_handler); reflexivity.
Defined.


End SessionMore.

(* ===================================================================== *)
(** * Further properties of the cue-sheet parser                          *)
(* ===================================================================== *)

Module CueMore.
Import Cue CueSpec.
Local Open Scope cue_scope.

(** ** Writing through the pointer to the last element *)

Lemma update_last_snoc {A} (f : A -> A) l x :
  update_last f (l ++ [x]) = l ++ [f x].
Proof.
  induction l as [|a l IH]; [reflexivity|].
  simpl. rewrite IH. destruct l; reflexivity.
Qed.

Lemma last_update_last {A} (f : A -> A) l :
  last (update_last f l) = f <$> last l.
Proof.
  destruct (last l) as [x|] eqn:E.
  - apply last_Some in E as [l' ->]. rewrite update_last_snoc.
    apply last_snoc.
  - apply last_None in E. subst. reflexivity.
Qed.

(** What is written through the pointer [getCurrentTrack] gave is what
    [getCurrentTrack] gives next. *)
Lemma getCurrentTrack_update f sheet :
  getCurrentTrack (update_current_track f sheet) = f <$> getCurrentTrack sheet.
Proof.
  unfold getCurrentTrack, getCurrentFile, update_current_track. simpl.
  rewrite last_update_last. destruct (last (Files sheet)) as [file|]; simpl;
    [|reflexivity].
  apply last_update_last.
Qed.

(** ** Numbers that follow one another *)

Lemma consecutive_snoc ns n :
  consecutive (ns ++ [n]) =
  consecutive ns &&
  match last ns with Some p => n =? p + 1 | None => true end.
Proof.
  induction ns as [|a ns IH]; [reflexivity|].
  destruct ns as [|b ns]; [simpl; rewrite andb_true_r; reflexivity|].
  change (consecutive ((a :: b :: ns) ++ [n]))
    with ((b =? a + 1) && consecutive ((b :: ns) ++ [n])).
  rewrite IH. change (consecutive (a :: b :: ns))
    with ((b =? a + 1) && consecutive (b :: ns)).
  change (last (a :: b :: ns)) with (last (b :: ns)).
  rewrite andb_assoc. reflexivity.
Qed.

Lemma last_map {A B} (f : A -> B) l : last (map f l) = f <$> last l.
Proof.
  induction l as [|a l IH]; [reflexivity|].
  destruct l; [reflexivity|exact IH].
Qed.

Lemma indexes_numbered_snoc t i :
  indexes_numbered t = true ->
  0 <= IndexNumber i <= 99 ->
  match last (Indexes t) with
  | None => IndexNumber i < 2
  | Some prev => IndexNumber i = IndexNumber prev + 1
  end ->
  indexes_numbered (set_Indexes (Indexes t ++ [i]) t) = true.
Proof.
  unfold indexes_numbered. simpl. intros H Hr Hl.
  apply andb_true_iff in H as [H H3]. apply andb_true_iff in H as [H1 H2].
  rewrite map_app. cbn [map].
  rewrite consecutive_snoc, forallb_app, last_map, H2, H3. simpl.
  destruct (Indexes t) as [|i0 rest] eqn:E.
  - simpl in *.
    replace (IndexNumber i <=? 99) with true by (symmetry; apply Z.leb_le; lia).
    destruct (Z.eqb_spec (IndexNumber i) 0); [reflexivity|].
    destruct (Z.eqb_spec (IndexNumber i) 1); [reflexivity|lia].
  - cbn [map app] in *. rewrite H1.
    destruct (last (i0 :: rest)) as [prev|]; simpl in *.
    + replace (IndexNumber i =? IndexNumber prev + 1) with true
        by (symmetry; apply Z.eqb_eq; lia).
      replace (IndexNumber i <=? 99) with true
        by (symmetry; apply Z.leb_le; lia).
      reflexivity.
    + replace (IndexNumber i <=? 99) with true
        by (symmetry; apply Z.leb_le; lia).
      reflexivity.
Qed.

Lemma tracks_numbered_snoc file t :
  tracks_numbered file = true ->
  1 <= TrackNumber t ->
  match last (Tracks file) with
  | None => True
  | Some prev => TrackNumber prev = TrackNumber t - 1
  end ->
  tracks_numbered (set_Tracks (Tracks file ++ [t]) file) = true.
Proof.
  unfold tracks_numbered. simpl. intros H Hr Hl.
  apply andb_true_iff in H as [H1 H2].
  rewrite map_app. cbn [map]. rewrite consecutive_snoc, last_map, H2. simpl.
  destruct (Tracks file) as [|t0 ts] eqn:E.
  - simpl. rewrite andb_true_r. apply Z.leb_le. exact Hr.
  - cbn [map app] in *. rewrite H1.
    destruct (last (t0 :: ts)) as [prev|]; simpl in *; [|reflexivity].
    apply Z.eqb_eq. lia.
Qed.

(** Writing to the current track keeps the numbering when it keeps the
    number of the track and leaves its indexes numbered. *)
Lemma update_keeps_well_numbered f sheet :
  (forall t, getCurrentTrack sheet = Some t ->
     TrackNumber (f t) = TrackNumber t /\ indexes_numbered (f t) = true) ->
  well_numbered sheet = true ->
  well_numbered (update_current_track f sheet) = true.
Proof.
  unfold well_numbered, update_current_track, getCurrentTrack,
    getCurrentFile. simpl. intros Hf H.
  destruct (last (Files sheet)) as [file|] eqn:E.
  - apply last_Some in E as [fs E]. rewrite E in *.
    rewrite update_last_snoc. rewrite forallb_app in *.
    apply andb_true_iff in H as [H1 H2]. rewrite H1. simpl in *.
    rewrite andb_true_r in *. apply andb_true_iff in H2 as [H2 H3].
    destruct (last (Tracks file)) as [t|] eqn:Et.
    + apply last_Some in Et as [ts Et]. rewrite Et in *.
      rewrite update_last_snoc. destruct (Hf t eq_refl) as [Hn Hi].
      rewrite forallb_app in *. apply andb_true_iff in H3 as [H3 _].
      rewrite H3. simpl. rewrite Hi. simpl. rewrite andb_true_r.
      unfold tracks_numbered in *. simpl. rewrite Et in H2.
      rewrite map_app in *. simpl in *. rewrite Hn. exact H2.
    + apply last_None in Et. unfold tracks_numbered. simpl. rewrite Et.
      reflexivity.
  - apply last_None in E. rewrite E. reflexivity.
Qed.

Section WithHelpers.
Variable TrimSpace : string -> string.
Variable parseCommand : string -> error + (string * list string).
Variable parseTime : string -> error + (Z * Z * Z).
Variable Atoi : string -> error + Z.
Variable ToTitle : string -> string.
Variable stringTruncateMaybe : Sheet -> string -> Z -> string.

Abbreviation parsersMap := (parsersMap parseTime Atoi ToTitle stringTruncateMaybe).
Abbreviation descriptors := (descriptors parseTime Atoi ToTitle stringTruncateMaybe).
Abbreviation parseIndex := (parseIndex parseTime Atoi).
Abbreviation parseTrack := (parseTrack Atoi).
Abbreviation parseTitle := (parseTitle stringTruncateMaybe).
Abbreviation parse_lines :=
  (parse_lines TrimSpace parseCommand parseTime Atoi ToTitle
     stringTruncateMaybe).
Abbreviation Parse :=
  (Parse TrimSpace parseCommand parseTime Atoi ToTitle stringTruncateMaybe).
Abbreviation is_blank := (is_blank TrimSpace).

(** Goes through the thirteen entries of the table. *)
Ltac each_entry H :=
  unfold Cue.descriptors in H;
  repeat (apply elem_of_cons in H as [H|H];
          [inversion H; subst; clear H|]);
  [..|apply elem_of_nil in H; contradiction].

(** ** The loop over the lines *)

(** X23.  No input makes [Parse] panic: with the parameter counts of the
    table, no command parser reads outside the parameters of its line. *)
Theorem Parse_never_panics input flags : Parse input flags <> Panic.
Proof.
  unfold Cue.Parse.
  pose proof (parse_lines_no_panic TrimSpace parseCommand parseTime Atoi
                ToTitle stringTruncateMaybe input 1 (newSheet flags)) as H.
  destruct (parse_lines input 1 (newSheet flags)); simpl;
    [discriminate|discriminate|contradiction].
Qed.

(** X24.  Blank lines are skipped and are not counted: the result of
    [Parse], and with it the line number in an error, is the one of the
    input without its blank lines. *)
Theorem blank_lines_are_not_counted input flags :
  Parse input flags = Parse (filter (fun r => is_blank r = false) input) flags.
Proof.
  unfold Cue.Parse. f_equal. generalize 1 (newSheet flags).
  induction input as [|[buf|e] rest IH]; intros n sheet; [reflexivity| |].
  - destruct (String.length (TrimSpace buf) =? 0)%nat eqn:Eb.
    + rewrite filter_cons_False by (simpl; rewrite Eb; discriminate).
      simpl. rewrite Eb. apply IH.
    + rewrite filter_cons_True by (simpl; exact Eb).
      simpl. rewrite Eb.
      destruct (parseCommand (TrimSpace buf)) as [e|[cmd params]];
        [reflexivity|].
      destruct (parsersMap !! cmd) as [[k parser]|]; [|reflexivity].
      destruct (negb (k =? -1) && negb (k =? Z.of_nat (length params)));
        [reflexivity|].
      destruct (parser params sheet); [apply IH|reflexivity|reflexivity].
  - rewrite filter_cons_True by reflexivity. reflexivity.
Qed.

(** X25.  The first error ends the parse: an error of the first lines is
    the error of the whole input, whatever follows, and so the first
    lines of an accepted input are accepted on their own. *)
Theorem first_error_wins before after flags :
  (forall e, Parse before flags = Error e ->
     Parse (before ++ after) flags = Error e) /\
  (forall sheet, Parse (before ++ after) flags = Ok sheet ->
     exists sheet', Parse before flags = Ok sheet').
Proof.
  unfold Cue.Parse. rewrite parse_lines_app.
  destruct (parse_lines before 1 (newSheet flags)) as [[n s]|e|]; simpl.
  - split; [discriminate|eauto].
  - split; [trivial|discriminate].
  - split; discriminate.
Qed.

(** ** The numbering of an accepted sheet *)

Lemma current_track_numbered sheet t :
  well_numbered sheet = true -> getCurrentTrack sheet = Some t ->
  indexes_numbered t = true.
Proof.
  unfold well_numbered, getCurrentTrack, getCurrentFile. intros H Ht.
  destruct (last (Files sheet)) as [file|] eqn:E; [|discriminate].
  apply last_Some in E as [fs E]. rewrite E, forallb_app in H.
  apply andb_true_iff in H as [_ H]. simpl in H. rewrite andb_true_r in H.
  apply andb_true_iff in H as [_ H].
  apply last_Some in Ht as [ts Ht]. rewrite Ht, forallb_app in H.
  apply andb_true_iff in H as [_ H]. simpl in H. rewrite andb_true_r in H.
  exact H.
Qed.

Lemma parseFile_keeps_well_numbered params sheet sheet' :
  well_numbered sheet = true ->
  parseFile ToTitle params sheet = Ok sheet' ->
  well_numbered sheet' = true.
Proof.
  intros Hs H. cbv [parseFile bind] in H.
  repeat (case_match; try discriminate). inversion H; subst; clear H.
  unfold well_numbered in *. simpl. rewrite forallb_app, Hs. reflexivity.
Qed.

Lemma parseIndex_keeps_well_numbered params sheet sheet' :
  well_numbered sheet = true ->
  parseIndex params sheet = Ok sheet' ->
  well_numbered sheet' = true.
Proof.
  intros Hs H. cbv [Cue.parseIndex bind lift] in H.
  destruct (param 1 params) as [p1| |]; try discriminate.
  destruct (parseTime p1) as [e|[[m s] f]]; [discriminate|].
  destruct (param 0 params) as [p0| |]; try discriminate.
  destruct (Atoi p0) as [e|number]; [discriminate|].
  destruct ((number <? 0) || (number >? 99)) eqn:Er; [discriminate|].
  apply orb_false_iff in Er as [Hlo Hhi].
  apply Z.ltb_ge in Hlo. rewrite Z.gtb_ltb in Hhi. apply Z.ltb_ge in Hhi.
  destruct (getCurrentTrack sheet) as [track|] eqn:Hcur; [|discriminate].
  assert (Hl : match last (Indexes track) with
               | None => number < 2
               | Some prev => number = IndexNumber prev + 1
               end).
  { destruct (last (Indexes track)) as [prev|].
    - destruct (Z.eqb_spec (IndexNumber prev + 1) number); [lia|discriminate].
    - destruct (number >=? 2) eqn:E; [discriminate|].
      rewrite Z.geb_leb in E. apply Z.leb_gt in E. lia. }
  assert (Hsheet : sheet' =
            update_current_track
              (fun t =>
                 set_Indexes
                   (Indexes t ++
                    [{| IndexNumber := number;
                        IndexTime :=
                          {| Min := m; Sec := s; Frames := f |} |}]) t)
              sheet).
  { destruct (last (Indexes track)) as [prev|].
    - destruct (IndexNumber prev + 1 =? number); [|discriminate].
      inversion H. reflexivity.
    - destruct (number >=? 2); [discriminate|]. inversion H. reflexivity. }
  subst sheet'. apply update_keeps_well_numbered; [|exact Hs].
  intros t' Ht'. assert (t' = track) by congruence. subst t'.
  split; [reflexivity|].
  apply indexes_numbered_snoc;
    [exact (current_track_numbered sheet track Hs Hcur)|simpl; lia|exact Hl].
Qed.

Lemma parseTrack_keeps_well_numbered params sheet sheet' :
  well_numbered sheet = true ->
  parseTrack params sheet = Ok sheet' ->
  well_numbered sheet' = true.
Proof.
  intros Hs H. cbv [Cue.parseTrack bind lift] in H.
  unfold getCurrentFile in H.
  destruct (last (Files sheet)) as [file|] eqn:Ef; [|discriminate].
  destruct (param 0 params) as [a| |]; try discriminate.
  destruct (param 1 params) as [b| |]; try discriminate.
  destruct (Atoi a) as [e|number]; [discriminate|].
  destruct (number <? 1) eqn:Er; [discriminate|]. apply Z.ltb_ge in Er.
  destruct (parseDataType b) as [dt| |]; try discriminate.
  assert (Hl : match last (Tracks file) with
               | None => True
               | Some prev => TrackNumber prev = number - 1
               end).
  { destruct (last (Tracks file)) as [prev|]; [|exact I].
    destruct (Z.eqb_spec (TrackNumber prev) (number - 1));
      [assumption|discriminate]. }
  assert (Hsheet : sheet' =
            set_Files
              (update_last
                 (fun f => set_Tracks (Tracks f ++ [newTrack number dt]) f)
                 (Files sheet)) sheet).
  { destruct (last (Tracks file)) as [prev|].
    - destruct (negb (TrackNumber prev =? number - 1)); [discriminate|].
      inversion H. reflexivity.
    - inversion H. reflexivity. }
  subst sheet'. unfold well_numbered in *. simpl.
  apply last_Some in Ef as [fs Ef]. rewrite Ef in *.
  rewrite update_last_snoc. rewrite forallb_app in *.
  apply andb_true_iff in Hs as [H1 H2]. rewrite H1. simpl in *.
  rewrite andb_true_r in *. apply andb_true_iff in H2 as [H2 H3].
  rewrite forallb_app, H3. simpl. rewrite andb_true_r.
  apply (tracks_numbered_snoc file (newTrack number dt)); simpl; auto.
Qed.

(** Each command keeps the sheet well numbered. *)
Lemma parser_keeps_well_numbered cmd n parser params sheet sheet' :
  (cmd, (n, parser)) ∈ descriptors ->
  well_numbered sheet = true ->
  parser params sheet = Ok sheet' ->
  well_numbered sheet' = true.
Proof.
  intros Hin Hs H. each_entry Hin.
  3: exact (parseFile_keeps_well_numbered _ _ _ Hs H).
  4: exact (parseIndex_keeps_well_numbered _ _ _ Hs H).
  11: exact (parseTrack_keeps_well_numbered _ _ _ Hs H).
  all: cbv [parseCatalog parseCdTextFile parseFlags
             parseIsrc parsePerformer parsePostgap parsePregap
             parseRem parseSongWriter Cue.parseTitle bind lift] in H.
  all: repeat (case_match; try discriminate).
  all: inversion H; subst; clear H; try exact Hs.
  all: apply update_keeps_well_numbered; [|exact Hs].
  all: intros ? Hcur; split; [reflexivity|].
  all: exact (current_track_numbered sheet _ Hs Hcur).
Qed.

Lemma parse_lines_keeps_well_numbered input : forall n sheet n' sheet',
  well_numbered sheet = true ->
  parse_lines input n sheet = Ok (n', sheet') ->
  well_numbered sheet' = true.
Proof.
  induction input as [|[buf|e] rest IH]; intros n sheet n' sheet' Hs H;
    simpl in H.
  - inversion H; subst. exact Hs.
  - destruct (String.length (TrimSpace buf) =? 0)%nat; [eapply IH; eauto|].
    destruct (parseCommand (TrimSpace buf)) as [e|[cmd params]];
      [discriminate|].
    destruct (parsersMap !! cmd) as [[k parser]|] eqn:Hk; [|discriminate].
    destruct (negb (k =? -1) && negb (k =? Z.of_nat (length params)));
      [discriminate|].
    destruct (parser params sheet) as [sheet1| |] eqn:Ep; try discriminate.
    apply parsersMap_descriptors in Hk.
    eapply IH; [|exact H].
    eapply parser_keeps_well_numbered; [exact Hk|exact Hs|exact Ep].
  - discriminate.
Qed.

(** X26.  In a sheet [Parse] returns, the track numbers of each file
    start at 1 or more and go up by one, and the index numbers of each
    track start at 0 or 1, go up by one and are at most 99. *)
Theorem parsed_sheet_is_well_numbered input flags sheet :
  Parse input flags = Ok sheet -> well_numbered sheet = true.
Proof.
  unfold Cue.Parse. intros H.
  destruct (parse_lines input 1 (newSheet flags)) as [[n s]|e|] eqn:E;
    try discriminate.
  inversion H; subst; clear H.
  eapply parse_lines_keeps_well_numbered; [|exact E]. reflexivity.
Qed.

(** ** The current track *)

(** X27.  The commands that can only write to a track are rejected while
    there is no current track: before the first TRACK of the sheet, and
    again after each FILE until its first TRACK. *)
Theorem track_commands_need_a_track cmd k parser params sheet :
  cmd ∈ track_commands ->
  parsersMap !! cmd = Some (k, parser) ->
  k = -1 \/ k = Z.of_nat (length params) ->
  getCurrentTrack sheet = None ->
  exists e, parser params sheet = Error e.
Proof.
  intros Hcmd Hk Hn Hcur.
  pose proof (parser_no_panic parseTime Atoi ToTitle stringTruncateMaybe
                cmd k parser params sheet
                (parsersMap_descriptors _ _ _ _ _ _ Hk) Hn) as Hnp.
  assert (Hno : forall sheet', parser params sheet <> Ok sheet').
  { unfold track_commands in Hcmd.
    repeat (apply elem_of_cons in Hcmd as [->|Hcmd]);
      [..|apply elem_of_nil in Hcmd; contradiction].
    all: match type of Hk with
         | ?m !! ?c = _ =>
             first
               [ change (m !! c) with (Some (-1, parseFlags)) in Hk
               | change (m !! c) with (Some (2, parseIndex)) in Hk
               | change (m !! c) with (Some (1, parseIsrc)) in Hk
               | change (m !! c)
                   with (Some (1, parsePostgap parseTime)) in Hk
               | change (m !! c)
                   with (Some (1, parsePregap parseTime)) in Hk ]
         end.
    all: inversion Hk; subst; clear Hk.
    all: intros sheet'.
    all: cbv [parseFlags Cue.parseIndex parseIsrc parsePostgap parsePregap
              bind lift].
    all: rewrite ?Hcur.
    all: repeat (case_match; try discriminate).
    all: discriminate. }
  destruct (parser params sheet) as [sheet'| |]; [|eauto|contradiction].
  exfalso. exact (Hno sheet' eq_refl).
Qed.

(** X28.  TITLE names the current track when there is one, and the disc
    otherwise; the other of the two keeps its title. *)
Theorem TITLE_goes_to_the_current_track p sheet :
  exists sheet',
    parseTitle [p] sheet = Ok sheet' /\
    match getCurrentTrack sheet with
    | Some track =>
        getCurrentTrack sheet' =
          Some (set_TrackTitle (stringTruncateMaybe sheet p 80) track) /\
        Title sheet' = Title sheet
    | None =>
        Title sheet' = stringTruncateMaybe sheet p 80 /\
        Files sheet' = Files sheet
    end.
Proof.
  unfold Cue.parseTitle. simpl.
  destruct (getCurrentTrack sheet) as [track|] eqn:Hcur; eexists;
    (split; [reflexivity|]).
  - rewrite getCurrentTrack_update, Hcur. split; reflexivity.
  - split; reflexivity.
Qed.

(** X29.  An INDEX whose time and number can be read and whose number
    fits the sheet is accepted and becomes the last index of the current
    track. *)
Theorem INDEX_in_order_is_appended p0 p1 sheet number m s f :
  parseTime p1 = inr (m, s, f) ->
  Atoi p0 = inr number ->
  ~ index_out_of_order sheet number ->
  exists track sheet',
    getCurrentTrack sheet = Some track /\
    parseIndex [p0; p1] sheet = Ok sheet' /\
    getCurrentTrack sheet' =
      Some (set_Indexes
              (Indexes track ++
               [{| IndexNumber := number;
                   IndexTime := {| Min := m; Sec := s; Frames := f |} |}])
              track).
Proof.
  clear TrimSpace parseCommand ToTitle stringTruncateMaybe.
  intros Ht Ha Hfit. unfold index_out_of_order in Hfit.
  assert (Hlo : ~ number < 0) by tauto.
  assert (Hhi : ~ 99 < number) by tauto.
  destruct (getCurrentTrack sheet) as [track|] eqn:Hcur; [|tauto].
  exists track. unfold Cue.parseIndex, param, bind, lift. simpl.
  rewrite Ht, Ha, Hcur.
  replace ((number <? 0) || (number >? 99)) with false.
  2: { symmetry. apply orb_false_iff. rewrite Z.gtb_ltb.
       split; apply Z.ltb_ge; lia. }
  destruct (last (Indexes track)) as [prev|].
  - destruct (Z.eqb_spec (IndexNumber prev + 1) number) as [E|E].
    + eexists. repeat split. rewrite getCurrentTrack_update, Hcur.
      reflexivity.
    + exfalso. apply Hfit. right. right. lia.
  - destruct (number >=? 2) eqn:E.
    + exfalso. apply Hfit. right. right. rewrite Z.geb_leb in E.
      apply Z.leb_le in E. exact E.
    + eexists. repeat split. rewrite getCurrentTrack_update, Hcur.
      reflexivity.
Qed.

(** X30.  A TRACK whose number and data type can be read is accepted
    exactly when its number is 1 or more and, in a file that has a
    track, one more than the number of the last track of the file; the
    new track is then the current one. *)
Theorem TRACK_number_follows_the_last a b sheet file number dataType :
  getCurrentFile sheet = Some file ->
  Atoi a = inr number ->
  parseDataType b = Ok dataType ->
  ((exists sheet', parseTrack [a; b] sheet = Ok sheet') <->
   1 <= number /\
   match last (Tracks file) with
   | None => True
   | Some prev => number = TrackNumber prev + 1
   end) /\
  (forall sheet',
     parseTrack [a; b] sheet = Ok sheet' ->
     getCurrentTrack sheet' = Some (newTrack number dataType)).
Proof.
  intros Hf Ha Hd. unfold Cue.parseTrack, param, bind, lift. simpl.
  rewrite Hf, Ha, Hd.
  assert (Hcur : forall sheet',
            Ok (set_Files
                  (update_last
                     (fun f0 =>
                        set_Tracks (Tracks f0 ++ [newTrack number dataType])
                          f0)
                     (Files sheet)) sheet) = Ok sheet' ->
            getCurrentTrack sheet' = Some (newTrack number dataType)).
  { intros sheet' H. inversion H; subst; clear H.
    unfold getCurrentTrack, getCurrentFile in *. simpl.
    rewrite last_update_last, Hf. simpl. apply last_snoc. }
  destruct (Z.ltb_spec number 1) as [Hlt|Hge].
  { split; [|discriminate]. split; [intros [? H]; discriminate|lia]. }
  destruct (last (Tracks file)) as [prev|].
  - destruct (Z.eqb_spec (TrackNumber prev) (number - 1)) as [E|E]; simpl.
    + split; [|exact Hcur]. split; [intros _; lia|eauto].
    + split; [|discriminate]. split; [intros [? H]; discriminate|lia].
  - split; [|exact Hcur]. split; [intros _; lia|eauto].
Qed.

End WithHelpers.

(** ** Concrete sheets *)

(** The empty lines of the spaced sheet change nothing, and the unknown
    command after an empty line is reported at line 2. *)
Example spaced_sheet_is_the_well_formed_one :
  Plain.Parse Plain.spaced 0 = Plain.Parse Plain.well_formed 0 /\
  Plain.Parse [Line "FILE a.wav WAVE"; Line EmptyString; Line "NOPE"] 0
  = Error (ErrUnknownCommand 2 "NOPE").
Proof. split; vm_compute; reflexivity. Qed.

(** X25, at a concrete sheet: the INDEX before any TRACK, with a line
    after it. *)
Lemma first_error_wins_witness :
  Plain.Parse (Plain.index_first ++ [Line "TRACK 01 AUDIO"]) 0
  = Error (ErrLine 2 ErrTrackExpected).
Proof.
  apply (proj1 (first_error_wins Plain.same Plain.parseCommand
                  Plain.parseTime Plain.Atoi Plain.same Plain.keep
                  Plain.index_first [Line "TRACK 01 AUDIO"] 0)).
  vm_compute. reflexivity.
Defined.

(** X26, at a concrete sheet: the well-formed one. *)
Lemma parsed_sheet_is_well_numbered_witness :
  match Plain.Parse Plain.well_formed 0 with
  | Ok sheet => well_numbered sheet = true
  | _ => False
  end.
Proof.
  destruct (Plain.Parse Plain.well_formed 0) as [sheet|e|] eqn:E.
  - exact (parsed_sheet_is_well_numbered Plain.same Plain.parseCommand
             Plain.parseTime Plain.Atoi Plain.same Plain.keep
             Plain.well_formed 0 sheet E).
  - vm_compute in E. discriminate E.
  - vm_compute in E. discriminate E.
Defined.

(** X27, at a concrete sheet: an INDEX on the empty sheet. *)
Lemma track_commands_need_a_track_witness :
  exists e,
    Cue.parseIndex Plain.parseTime Plain.Atoi ["01"; "00:00:00"]%string
      (newSheet 0) = Error e.
Proof.
  apply (track_commands_need_a_track Plain.parseTime Plain.Atoi Plain.same
           Plain.keep "INDEX" 2 _ ["01"; "00:00:00"]%string (newSheet 0)).
  - unfold track_commands. set_solver.
  - reflexivity.
  - right. reflexivity.
  - reflexivity.
Defined.

(** X29, at a concrete sheet: the first index of the only track. *)
Lemma INDEX_in_order_is_appended_witness :
  exists track sheet',
    getCurrentTrack Plain.one_track = Some track /\
    Cue.parseIndex Plain.parseTime Plain.Atoi ["01"; "00:00:00"]%string
      Plain.one_track = Ok sheet' /\
    getCurrentTrack sheet' =
      Some (set_Indexes
              (Indexes track ++
               [{| IndexNumber := 1;
                   IndexTime := {| Min := 0; Sec := 0; Frames := 0 |} |}])
              track).
Proof.
  apply (INDEX_in_order_is_appended Plain.parseTime Plain.Atoi
           "01" "00:00:00" Plain.one_track 1 0 0 0).
  - reflexivity.
  - reflexivity.
  - unfold index_out_of_order. simpl. lia.
Defined.

(** X30, at a concrete sheet: the second track of the file. *)
Lemma TRACK_number_follows_the_last_witness :
  exists sheet',
    Cue.parseTrack Plain.Atoi ["02"; "AUDIO"]%string Plain.one_track
      = Ok sheet'.
Proof.
  apply (proj1 (TRACK_number_follows_the_last Plain.Atoi "02" "AUDIO"
                  Plain.one_track
                  {| FileName := "a.wav"; FileType_ := FileTypeWave;
                     Tracks := [newTrack 1 DataTypeAudio] |} 2 DataTypeAudio
                  eq_refl eq_refl eq_refl)).
  split; [lia|reflexivity].
Defined.

End CueMore.
